(** * go-shp: the ZIP archive reader (zipreader.go)

    A shallow embedding of [zipreader.go]: the entry resolver
    ([openFromZIP], [shapesInZip]), the constructors ([OpenZip],
    [OpenZipReader], [OpenShapeFromZip]), the listing operation
    ([ShapesInZip]) and the [ZipReader] methods, together with the parts
    of the Go standard library they call ([strings.HasSuffix],
    [strings.TrimSuffix], [path.Ext], [fmt.Errorf], the close of an
    [os.File]).

    Go strings are byte sequences; they are embedded as [string], whose
    characters are the bytes.  Functions of type [(T, error)] return a
    [result]; the operating system (the archives found at each path, the
    open container handles, the log of entry streams opened) is an explicit
    [World] threaded through every operation that touches it. *)

From Stdlib Require Import String Ascii ZArith.
From stdpp Require Import base option list strings gmap.

Local Open Scope string_scope.

(** ** Go strings as byte sequences *)

Module GoString.

Definition bytes (s : string) : list ascii := list_ascii_of_string s.
Definition str (l : list ascii) : string := string_of_list_ascii l.

(** [len(s)] *)
Definition len (s : string) : nat := length (bytes s).

(** [s[i]], for [i] in range *)
Definition at_ (s : string) (i : nat) : option ascii := bytes s !! i.

(** [s[i:]] and [s[:i]] *)
Definition from (i : nat) (s : string) : string := str (drop i (bytes s)).
Definition upto (i : nat) (s : string) : string := str (take i (bytes s)).

Definition byte_eqb (a b : ascii) : bool := Ascii.eqb a b.

End GoString.

Import GoString.

(** ** package strings *)

(** [func HasSuffix(s, suffix string) bool {
      return len(s) >= len(suffix) && s[len(s)-len(suffix):] == suffix }] *)
Definition HasSuffix (s suffix : string) : bool :=
  (len suffix <=? len s)%nat && String.eqb (from (len s - len suffix) s) suffix.

(** [func TrimSuffix(s, suffix string) string {
      if HasSuffix(s, suffix) { return s[:len(s)-len(suffix)] }
      return s }] *)
Definition TrimSuffix (s suffix : string) : string :=
  if HasSuffix s suffix then upto (len s - len suffix) s else s.

(** [func Contains(s, substr string) bool]: some position of [s] starts
    with [substr]. *)
Fixpoint hasPrefixBytes (l p : list ascii) : bool :=
  match p, l with
  | [], _ => true
  | _ :: _, [] => false
  | b :: p', a :: l' => byte_eqb a b && hasPrefixBytes l' p'
  end.

Fixpoint containsBytes (l p : list ascii) : bool :=
  hasPrefixBytes l p ||
  match l with
  | [] => false
  | _ :: l' => containsBytes l' p
  end.

Definition Contains (s substr : string) : bool :=
  containsBytes (bytes s) (bytes substr).

(** ** package path *)

(** [func Ext(path string) string {
      for i := len(path) - 1; i >= 0 && path[i] != '/'; i-- {
        if path[i] == '.' { return path[i:] }
      }
      return "" }]

    The counter [n] is [i + 1]. *)
Fixpoint Ext_loop (n : nat) (path : string) : string :=
  match n with
  | O => ""
  | S i =>
      match at_ path i with
      | Some c =>
          if byte_eqb c "/" then ""
          else if byte_eqb c "." then from i path
          else Ext_loop i path
      | None => ""
      end
  end.

Definition Ext (path : string) : string := Ext_loop (len path) path.

(** ** package fmt: formatting with no operands

    [Close] calls [fmt.Errorf(s)] with the accumulated text as the format
    and no operand, so the text goes through the scanner of
    [doPrintf] (fmt/print.go) with [len(a) = 0].  Bytes other than
    ['%'] are copied; a ['%'] starts a directive whose flags, argument
    index, width and precision are parsed and whose verb, finding no
    operand, is written as [%!verb(MISSING)], [%!verb(BADINDEX)], [%] for
    [%%], or [%!(NOVERB)] at the end of the format. *)

Module Fmt.

Local Open Scope list_scope.

Definition code (c : ascii) : Z := Z.of_nat (nat_of_ascii c).

Definition isDigit (c : ascii) : bool :=
  (code "0" <=? code c)%Z && (code c <=? code "9")%Z.

Definition isFlag (c : ascii) : bool :=
  byte_eqb c "#" || byte_eqb c "0" || byte_eqb c "+" ||
  byte_eqb c "-" || byte_eqb c " ".

(** [tooLarge(x)]: [x > 1e6] (the accumulated number is never negative) *)
Definition tooLarge (x : Z) : bool := (1000000 <? x)%Z.

(** [parsenum(s, start, end)] on the bytes [s[start:end]]: the number,
    whether a digit was seen, and the bytes left.  On overflow Go returns
    [(0, false, end)], that is, nothing is left. *)
Fixpoint parsenum_loop (l : list ascii) (num : Z) (isnum : bool)
  : Z * bool * list ascii :=
  match l with
  | c :: l' =>
      if isDigit c then
        if tooLarge num then (0%Z, false, [])
        else parsenum_loop l' (num * 10 + (code c - code "0"))%Z true
      else (num, isnum, l)
  | [] => (num, isnum, [])
  end.

Definition parsenum (l : list ascii) : Z * bool * list ascii :=
  parsenum_loop l 0%Z false.

(** Position of the first [']'] at index [>= 1] of [l], as the bytes
    between index 1 and it, and the bytes after it. *)
Fixpoint findClose (l : list ascii) : option (list ascii * list ascii) :=
  match l with
  | [] => None
  | c :: l' =>
      if byte_eqb c "]" then Some ([], l')
      else match findClose l' with
           | Some (inner, after) => Some (c :: inner, after)
           | None => None
           end
  end.

(** [parseArgNumber(format)], [format] starting with ['[']: the index,
    the number of bytes to skip ([wid]) and [ok]. *)
Definition parseArgNumber (l : list ascii) : Z * nat * bool :=
  if (length l <? 3)%nat then (0%Z, 1%nat, false)
  else
    match findClose (drop 1 l) with
    | Some (inner, _) =>
        let '(width, ok, rest) := parsenum inner in
        let wid := S (S (length inner)) in
        if negb ok || negb (bool_decide (rest = [])) then (0%Z, wid, false)
        else ((width - 1)%Z, wid, true)
    | None => (0%Z, 1%nat, false)
    end.

(** [p.argNumber(argNum, format, i, numArgs)] with [numArgs = 0]: the
    bytes left, [found], and the new value of [p.goodArgNum]. *)
Definition argNumber (l : list ascii) (good : bool)
  : list ascii * bool * bool :=
  match l with
  | c :: _ =>
      if byte_eqb c "[" then
        let '(index, wid, ok) := parseArgNumber l in
        if ok && (0 <=? index)%Z && (index <? 0)%Z
        then (drop wid l, true, good)
        else (drop wid l, ok, false)
      else (l, false, good)
  | [] => (l, false, good)
  end.

Definition inRange (lo hi : Z) (c : ascii) : bool :=
  (lo <=? code c)%Z && (code c <=? hi)%Z.

(** U+FFFD, what [utf8.DecodeRuneInString] returns for an invalid
    encoding, as [writeRune] encodes it. *)
Definition runeError : list ascii :=
  [ascii_of_nat 239; ascii_of_nat 191; ascii_of_nat 189].

(** The verb at the head of [l] (non-empty): the bytes [writeRune]
    writes for it and the bytes left.  A byte below [utf8.RuneSelf] is
    the verb itself; otherwise the verb is the rune
    [utf8.DecodeRuneInString] decodes ([first] and [acceptRanges] of
    unicode/utf8). *)
Definition decodeVerb (l : list ascii) : list ascii * list ascii :=
  match l with
  | [] => ([], [])
  | s0 :: l1 =>
      if (code s0 <? 128)%Z then ([s0], l1)
      else
        let invalid := (runeError, l1) in
        let cont := inRange 128 191 in
        let sized (sz : nat) (lo hi : Z) :=
          if (length l <? sz)%nat then invalid
          else
            match l1 with
            | s1 :: l2 =>
                if negb (inRange lo hi s1) then invalid
                else if (sz <=? 2)%nat then ([s0; s1], l2)
                else
                  match l2 with
                  | s2 :: l3 =>
                      if negb (cont s2) then invalid
                      else if (sz <=? 3)%nat then ([s0; s1; s2], l3)
                      else
                        match l3 with
                        | s3 :: l4 =>
                            if negb (cont s3) then invalid
                            else ([s0; s1; s2; s3], l4)
                        | [] => invalid
                        end
                  | [] => invalid
                  end
            | [] => invalid
            end in
        if inRange 194 223 s0 then sized 2%nat 128%Z 191%Z
        else if inRange 224 224 s0 then sized 3%nat 160%Z 191%Z
        else if inRange 225 236 s0 then sized 3%nat 128%Z 191%Z
        else if inRange 237 237 s0 then sized 3%nat 128%Z 159%Z
        else if inRange 238 239 s0 then sized 3%nat 128%Z 191%Z
        else if inRange 240 240 s0 then sized 4%nat 144%Z 191%Z
        else if inRange 241 243 s0 then sized 4%nat 128%Z 191%Z
        else if inRange 244 244 s0 then sized 4%nat 128%Z 143%Z
        else invalid
  end.

Definition percentBang : list ascii := bytes "%!".
Definition missingString : list ascii := bytes "(MISSING)".
Definition badIndexString : list ascii := bytes "(BADINDEX)".
Definition noVerbString : list ascii := bytes "%!(NOVERB)".
Definition badWidthString : list ascii := bytes "%!(BADWIDTH)".
Definition badPrecString : list ascii := bytes "%!(BADPREC)".

Fixpoint skipFlags (l : list ascii) : list ascii :=
  match l with
  | c :: l' => if isFlag c then skipFlags l' else l
  | [] => []
  end.

Definition startsWith (c : ascii) (l : list ascii) : bool :=
  match l with
  | c' :: _ => byte_eqb c' c
  | [] => false
  end.

(** One directive, [l] being the format after its ['%']: the bytes
    written and the format left, [None] when the format ended before a
    verb ([break] out of [formatLoop]). *)
Definition directive (l : list ascii) : list ascii * option (list ascii) :=
  (* Do we have flags? *)
  let l := skipFlags l in
  (* Do we have an explicit argument index? *)
  let '(l, afterIndex, good) := argNumber l true in
  (* Do we have width? *)
  let '(out, l, afterIndex, good) :=
    if startsWith "*" l then (badWidthString, drop 1 l, false, good)
    else
      let '(_, widPresent, l') := parsenum l in
      ([], l', afterIndex, if afterIndex && widPresent then false else good) in
  (* Do we have precision? *)
  let '(out, l, afterIndex, good) :=
    if startsWith "." l then
      let good := if afterIndex then false else good in
      let '(l, afterIndex, good) := argNumber (drop 1 l) good in
      if startsWith "*" l then (out ++ badPrecString, drop 1 l, false, good)
      else
        let '(_, _, l') := parsenum l in
        (out, l', afterIndex, good)
    else (out, l, afterIndex, good) in
  let '(l, _, good) :=
    if afterIndex then (l, afterIndex, good) else argNumber l good in
  match l with
  | [] => (out ++ noVerbString, None)
  | _ :: _ =>
      let '(verb, rest) := decodeVerb l in
      if bool_decide (verb = bytes "%") then (out ++ bytes "%", Some rest)
      else if negb good then
        (out ++ percentBang ++ verb ++ badIndexString, Some rest)
      else (out ++ percentBang ++ verb ++ missingString, Some rest)
  end.

(** The loop of [doPrintf]; each round consumes at least one byte, so
    [length format] rounds are enough ([doPrintf_fuel]). *)
Fixpoint doPrintf (fuel : nat) (format : list ascii) : list ascii :=
  match fuel with
  | O => []
  | S fuel' =>
      match format with
      | [] => []
      | c :: rest =>
          if byte_eqb c "%" then
            match directive rest with
            | (out, Some rest') => out ++ doPrintf fuel' rest'
            | (out, None) => out
            end
          else c :: doPrintf fuel' rest
      end
  end.

(** [fmt.Sprintf(format)] with no operand *)
Definition Sprintf0 (format : string) : string :=
  str (doPrintf (len format) (bytes format)).

End Fmt.

(** ** Errors

    A Go [error] is a value with an [Error() string] method.  The
    constructors record where the value was made: the three [fmt.Errorf]
    calls of the entry resolver, the [fmt.Errorf(s)] of [Close], and the
    errors handed over by archive/zip, os, io and the sequential reader. *)

Inductive error : Type :=
| ErrNoSuchFile (name : string)
| ErrNoShp
| ErrMultipleShp
| ErrAggregate (format : string)
| ErrForeign (msg : string).

Definition Error (e : error) : string :=
  match e with
  | ErrNoSuchFile name => "No such file in archive: " ++ name
  | ErrNoShp => "archive does not contain a .shp file"
  | ErrMultipleShp => "archive does contain multiple .shp files"
  | ErrAggregate format => Fmt.Sprintf0 format
  | ErrForeign msg => msg
  end.

(** The error kinds of the specification. *)
Inductive ErrorKind : Type :=
| EntryNotFound
| AmbiguousEntry
| ResourceReleaseFailed
| Foreign.

Definition kind (e : error) : ErrorKind :=
  match e with
  | ErrNoSuchFile _ => EntryNotFound
  | ErrNoShp => EntryNotFound
  | ErrMultipleShp => AmbiguousEntry
  | ErrAggregate _ => ResourceReleaseFailed
  | ErrForeign _ => Foreign
  end.

Inductive result (A : Type) : Type :=
| Ok (a : A)
| Err (e : error).
Arguments Ok {A} a.
Arguments Err {A} e.

(** The first component of a Go [(T, error)] result: [nil] on failure. *)
Definition value {A : Type} (r : result A) : option A :=
  match r with
  | Ok a => Some a
  | Err _ => None
  end.

(** A call either returns or panics (method call through a nil
    interface). *)
Inductive outcome (A : Type) : Type :=
| Return (a : A)
| Panic.
Arguments Return {A} a.
Arguments Panic {A}.

(** ** package archive/zip and the files behind it *)

(** An entry of the archive directory: its header name, and the messages
    of the errors, if any, that [f.Open()] and the close of the opened
    stream report. *)
Record zipFile : Type := {
  Name : string;
  openFault : option string;
  streamCloseFault : option string
}.

(** [zip.Reader]: the directory, in archive order. *)
Record zipReader : Type := { File : list zipFile }.

(** [zip.ReadCloser]: a [zip.Reader] together with the [os.File] it reads,
    named by its descriptor. *)
Record zipReadCloser : Type := { Reader : zipReader; f : nat }.

(** An [io.ReadCloser] returned by [f.Open()]. *)
Record Stream : Type := {
  stream_entry : string;
  stream_id : nat;
  stream_closeFault : option string
}.

Inductive HandleStatus : Type := HOpen | HClosed.

Record Handle : Type := {
  h_path : string;
  h_status : HandleStatus;
  h_closeFault : option string
}.

(** What a path holds: a file that is no archive (with the message of the
    error [zip.OpenReader] gives), or an archive with its directory and the
    message of the error, if any, that the first close of the file opened
    on it reports. *)
Record Archive : Type := {
  archive_reader : zipReader;
  archive_closeFault : option string
}.

Inductive PathContent : Type :=
| NotZip (msg : string)
| Zip (a : Archive).

Record World : Type := {
  fsys : gmap string PathContent;
  handles : list Handle;
  opens : list string
}.

Definition set_handles (w : World) (hs : list Handle) : World :=
  {| fsys := fsys w; handles := hs; opens := opens w |}.

Definition log_open (w : World) (name : string) : World :=
  {| fsys := fsys w; handles := handles w; opens := opens w ++ [name] |}.

(** [zip.OpenReader(path)]: opens the file and indexes it.  A path that
    holds no file, or a file that is no archive, gives an error and leaves
    no handle behind (the library closes the file it could not index). *)
Definition zip_OpenReader (path : string) (w : World)
  : result zipReadCloser * World :=
  match fsys w !! path with
  | Some (Zip a) =>
      (Ok {| Reader := archive_reader a; f := length (handles w) |},
       set_handles w
         (handles w ++
            [{| h_path := path; h_status := HOpen;
                h_closeFault := archive_closeFault a |}]))
  | Some (NotZip msg) => (Err (ErrForeign msg), w)
  | None =>
      (Err (ErrForeign ("open " ++ path ++ ": no such file or directory")), w)
  end.

(** [rc.Close()], that is [rc.f.Close()] of os: the first close releases
    the descriptor and reports the fault, if any; a later close fails with
    [os.ErrClosed] wrapped in a [PathError]. *)
Definition zipReadCloser_Close (rc : zipReadCloser) (w : World)
  : option error * World :=
  match handles w !! f rc with
  | Some h =>
      match h_status h with
      | HOpen =>
          (ErrForeign <$> h_closeFault h,
           set_handles w
             (<[f rc := {| h_path := h_path h; h_status := HClosed;
                           h_closeFault := h_closeFault h |}]> (handles w)))
      | HClosed =>
          (Some (ErrForeign ("close " ++ h_path h ++ ": file already closed")),
           w)
      end
  | None => (Some (ErrForeign "invalid argument"), w)
  end.

(** [f.Open()] *)
Definition zipFile_Open (e : zipFile) (w : World) : result Stream * World :=
  let w' := log_open w (Name e) in
  match openFault e with
  | Some msg => (Err (ErrForeign msg), w')
  | None =>
      (Ok {| stream_entry := Name e; stream_id := length (opens w);
             stream_closeFault := streamCloseFault e |}, w')
  end.

(** The [io.Reader] given to [OpenZipReader], by what [ioutil.ReadAll] and
    [zip.NewReader] make of it. *)
Inductive ioReader : Type :=
| ReadFails (msg : string)
| NotAnArchive (msg : string)
| ArchiveBytes (z : zipReader).

(** ** The sequential reader (sequentialreader.go)

    [zipreader.go] uses the interface [SequentialReader] and its
    constructor [SequentialReaderFromExt]; every method may update the
    reader.  The methods are functions: a call of the reader is taken to
    return, and what a reader does that panics instead is not described
    here. *)
Class SeqReaderImpl : Type := {
  Shape : Type;
  Field : Type;
  SequentialReader : Type;
  SequentialReaderFromExt : Stream -> option Stream -> SequentialReader;
  sr_Next : SequentialReader -> bool * SequentialReader;
  sr_Shape : SequentialReader -> (Z * Shape) * SequentialReader;
  sr_Attribute : Z -> SequentialReader -> string * SequentialReader;
  sr_Fields : SequentialReader -> list Field * SequentialReader;
  sr_Err : SequentialReader -> option error * SequentialReader;
  sr_Close : SequentialReader -> option error * SequentialReader
}.

(** ** zipreader.go *)

(** [for _, f := range z.File { if f.Name == name { return f.Open() } }
     return nil, fmt.Errorf("No such file in archive: %s", name)] *)
Fixpoint openFromZIP_loop (fs : list zipFile) (name : string) (w : World)
  : result Stream * World :=
  match fs with
  | e :: fs' =>
      if String.eqb (Name e) name then zipFile_Open e w
      else openFromZIP_loop fs' name w
  | [] => (Err (ErrNoSuchFile name), w)
  end.

Definition openFromZIP (z : zipReader) (name : string) (w : World)
  : result Stream * World :=
  openFromZIP_loop (File z) name w.

(** [for _, f := range z.File {
       if strings.HasSuffix(f.Name, ".shp") { shapeFiles = append(shapeFiles, f) } }] *)
Fixpoint shapesInZip_loop (fs shapeFiles : list zipFile) : list zipFile :=
  match fs with
  | e :: fs' =>
      shapesInZip_loop fs'
        (if HasSuffix (Name e) ".shp" then shapeFiles ++ [e] else shapeFiles)
  | [] => shapeFiles
  end.

Definition shapesInZip (z : zipReader) : list zipFile :=
  shapesInZip_loop (File z) [].

(** [strings.TrimSuffix(shapeFiles[0].Name, ".shp") + ".dbf"]: the name
    [loadSHPAndMaybeDBF] looks up for the attribute table. *)
Definition dbfNameOfShape (shapeName : string) : string :=
  TrimSuffix shapeName ".shp" ++ ".dbf".

(** [strings.TrimSuffix(name, path.Ext(name)) + ".dbf"]: the name
    [OpenShapeFromZip] looks up for the attribute table. *)
Definition dbfNameOfName (name : string) : string :=
  TrimSuffix name (Ext name) ++ ".dbf".

(** [dbf, _ := openFromZIP(...)]: the error is dropped, [dbf] is nil. *)
Definition orNil {A : Type} (r : result A) : option A := value r.

Section ZipReader.

Context {impl : SeqReaderImpl}.

Record ZipReader : Type := {
  sr : option SequentialReader;
  z : zipReader;
  file : option zipReadCloser
}.

Definition set_sr (zr : ZipReader) (s : SequentialReader) : ZipReader :=
  {| sr := Some s; z := z zr; file := file zr |}.

Definition loadSHPAndMaybeDBF (zr : ZipReader) (w : World)
  : option error * ZipReader * World :=
  let shapeFiles := shapesInZip (z zr) in
  match shapeFiles with
  | [] => (Some ErrNoShp, zr, w)
  | _ :: _ :: _ => (Some ErrMultipleShp, zr, w)
  | [shapeFile] =>
      match openFromZIP (z zr) (Name shapeFile) w with
      | (Err err, w1) => (Some err, zr, w1)
      | (Ok shp, w1) =>
          let withoutExt := TrimSuffix (Name shapeFile) ".shp" in
          let '(dbf, w2) := openFromZIP (z zr) (withoutExt ++ ".dbf") w1 in
          (None, set_sr zr (SequentialReaderFromExt shp (orNil dbf)), w2)
      end
  end.

Definition OpenZip (zipFilePath : string) (w : World)
  : result ZipReader * World :=
  match zip_OpenReader zipFilePath w with
  | (Err err, w1) => (Err err, w1)
  | (Ok rc, w1) =>
      let zr := {| sr := None; z := Reader rc; file := Some rc |} in
      match loadSHPAndMaybeDBF zr w1 with
      | (Some err, _, w2) => (Err err, w2)
      | (None, zr', w2) => (Ok zr', w2)
      end
  end.

Definition OpenZipReader (zipFileStream : ioReader) (w : World)
  : result ZipReader * World :=
  match zipFileStream with
  | ReadFails msg => (Err (ErrForeign msg), w)
  | NotAnArchive msg => (Err (ErrForeign msg), w)
  | ArchiveBytes rd =>
      let zr := {| sr := None; z := rd; file := None |} in
      match loadSHPAndMaybeDBF zr w with
      | (Some err, _, w1) => (Err err, w1)
      | (None, zr', w1) => (Ok zr', w1)
      end
  end.

Definition ShapesInZip (zipFilePath : string) (w : World)
  : result (list string) * World :=
  match zip_OpenReader zipFilePath w with
  | (Err err, w1) => (Err err, w1)
  | (Ok rc, w1) =>
      let shapeFiles := shapesInZip (Reader rc) in
      (Ok (map Name shapeFiles), w1)
  end.

Definition OpenShapeFromZip (zipFilePath name : string) (w : World)
  : result ZipReader * World :=
  match zip_OpenReader zipFilePath w with
  | (Err err, w1) => (Err err, w1)
  | (Ok rc, w1) =>
      let zr := {| sr := None; z := Reader rc; file := Some rc |} in
      match openFromZIP (z zr) name w1 with
      | (Err err, w2) => (Err err, w2)
      | (Ok shp, w2) =>
          let prefix := TrimSuffix name (Ext name) in
          let '(dbf, w3) := openFromZIP (z zr) (prefix ++ ".dbf") w2 in
          (Ok (set_sr zr (SequentialReaderFromExt shp (orNil dbf))), w3)
      end
  end.

(** [s += err.Error() + ". "] when [err != nil] *)
Definition addError (s : string) (err : option error) : string :=
  match err with
  | Some e => s ++ (Error e ++ ". ")
  | None => s
  end.

Definition Close (zr : ZipReader) (w : World)
  : outcome (option error * ZipReader * World) :=
  match sr zr with
  | None => Panic
  | Some rd =>
      let s := "" in
      let '(err, rd') := sr_Close rd in
      let s := addError s err in
      let '(s, w') :=
        match file zr with
        | Some rc =>
            let '(err, w') := zipReadCloser_Close rc w in
            (addError s err, w')
        | None => (s, w)
        end in
      Return (if negb (String.eqb s "") then Some (ErrAggregate s) else None,
              set_sr zr rd', w')
  end.

(** The forwarding methods.  [Shape] and [Err] carry an underscore, the
    plain names being those of the geometry type and of the error case of
    [result]. *)
Definition forward {A : Type}
  (m : SequentialReader -> A * SequentialReader) (zr : ZipReader)
  : outcome (A * ZipReader) :=
  match sr zr with
  | None => Panic
  | Some rd => let '(a, rd') := m rd in Return (a, set_sr zr rd')
  end.

Definition Next (zr : ZipReader) : outcome (bool * ZipReader) :=
  forward sr_Next zr.

Definition Shape_ (zr : ZipReader) : outcome ((Z * Shape) * ZipReader) :=
  forward sr_Shape zr.

Definition Attribute (zr : ZipReader) (n : Z) : outcome (string * ZipReader) :=
  forward (sr_Attribute n) zr.

Definition Fields (zr : ZipReader) : outcome (list Field * ZipReader) :=
  forward sr_Fields zr.

Definition Err_ (zr : ZipReader) : outcome (option error * ZipReader) :=
  forward sr_Err zr.

End ZipReader.

(** ** Call sequences on the cursor protocol *)

Inductive call : Type :=
| CallNext
| CallShape
| CallAttribute (n : Z)
| CallFields
| CallErr.

Section Calls.

Context {impl : SeqReaderImpl}.

Inductive reply : Type :=
| RNext (more : bool)
| RShape (at_shape : Z * Shape)
| RAttribute (text : string)
| RFields (fields : list Field)
| RErr (err : option error).

(** One call on the wrapped reader. *)
Definition readerCall (c : call) (rd : SequentialReader)
  : reply * SequentialReader :=
  match c with
  | CallNext => let '(b, rd') := sr_Next rd in (RNext b, rd')
  | CallShape => let '(x, rd') := sr_Shape rd in (RShape x, rd')
  | CallAttribute n => let '(x, rd') := sr_Attribute n rd in (RAttribute x, rd')
  | CallFields => let '(x, rd') := sr_Fields rd in (RFields x, rd')
  | CallErr => let '(x, rd') := sr_Err rd in (RErr x, rd')
  end.

(** The same call on the facade. *)
Definition facadeCall (c : call) (zr : ZipReader)
  : outcome (reply * ZipReader) :=
  match c with
  | CallNext =>
      match Next zr with
      | Return (b, zr') => Return (RNext b, zr')
      | Panic => Panic
      end
  | CallShape =>
      match Shape_ zr with
      | Return (x, zr') => Return (RShape x, zr')
      | Panic => Panic
      end
  | CallAttribute n =>
      match Attribute zr n with
      | Return (x, zr') => Return (RAttribute x, zr')
      | Panic => Panic
      end
  | CallFields =>
      match Fields zr with
      | Return (x, zr') => Return (RFields x, zr')
      | Panic => Panic
      end
  | CallErr =>
      match Err_ zr with
      | Return (x, zr') => Return (RErr x, zr')
      | Panic => Panic
      end
  end.

Fixpoint readerRun (cs : list call) (rd : SequentialReader)
  : list reply * SequentialReader :=
  match cs with
  | [] => ([], rd)
  | c :: cs' =>
      let '(r, rd1) := readerCall c rd in
      let '(rs, rd2) := readerRun cs' rd1 in
      (r :: rs, rd2)
  end.

Fixpoint facadeRun (cs : list call) (zr : ZipReader)
  : outcome (list reply * ZipReader) :=
  match cs with
  | [] => Return ([], zr)
  | c :: cs' =>
      match facadeCall c zr with
      | Panic => Panic
      | Return (r, zr1) =>
          match facadeRun cs' zr1 with
          | Panic => Panic
          | Return (rs, zr2) => Return (r :: rs, zr2)
          end
      end
  end.

End Calls.

(** ** A sequential reader over undecoded streams *)

(** Modelled from the spec: the sequential reader behind
    [SequentialReaderFromExt] (sequentialreader.go is not among the
    sources), after section 4.3 of the specification.  It wraps the two
    streams; the decoding of records being out of scope, a geometry is
    [tt], the attribute table has no column and the shape stream holds
    [records] records.  [Next] advances until the records are exhausted;
    [Close] releases both wrapped streams and reports the first close
    error. *)
Record seqReader : Type := {
  shp : Stream;
  dbf : option Stream;
  remaining : nat;
  num : Z
}.

(** Modelled from the spec: [Next] advances to the next record and
    returns false at the end of the stream. *)
Definition seqReader_Next (rd : seqReader) : bool * seqReader :=
  match remaining rd with
  | O => (false, rd)
  | S n =>
      (true,
       {| shp := shp rd; dbf := dbf rd; remaining := n; num := (num rd + 1)%Z |})
  end.

(** Modelled from the spec: [Close] releases both wrapped streams; it
    reports the close error of the geometry stream, else that of the
    attribute stream. *)
Definition seqReader_Close (rd : seqReader) : option error * seqReader :=
  (match stream_closeFault (shp rd) with
   | Some msg => Some (ErrForeign msg)
   | None =>
       match dbf rd with
       | Some d => ErrForeign <$> stream_closeFault d
       | None => None
       end
   end, rd).

(** Modelled from the spec: the operations of section 4.3 on
    [seqReader]; without decoding, no attribute has a value, there is no
    field and no decode error. *)
Definition seqReaderImpl (records : nat) : SeqReaderImpl := {|
  Shape := unit;
  Field := string;
  SequentialReader := seqReader;
  SequentialReaderFromExt shp dbf :=
    {| shp := shp; dbf := dbf; remaining := records; num := 0%Z |};
  sr_Next := seqReader_Next;
  sr_Shape rd := (((num rd - 1)%Z, tt), rd);
  sr_Attribute _ rd := ("", rd);
  sr_Fields rd := ([], rd);
  sr_Err rd := (None, rd);
  sr_Close := seqReader_Close
|}.

(** ** Sample archives *)

Definition entry (name : string) : zipFile :=
  {| Name := name; openFault := None; streamCloseFault := None |}.

Definition archiveOf (names : list string) : Archive :=
  {| archive_reader := {| File := entry <$> names |};
     archive_closeFault := None |}.

Definition worldOf (path : string) (a : Archive) : World :=
  {| fsys := {[ path := Zip a ]}; handles := []; opens := [] |}.

(** The archive of the specification's scenario. *)
Definition parcels : Archive := archiveOf ["parcels.shp"; "parcels.dbf"].

(** An archive at a path with a ['%'] in it, whose geometry stream and
    whose file both report an error when closed. *)
Definition cityPlan : Archive :=
  {| archive_reader :=
       {| File := [{| Name := "plan.shp"; openFault := None;
                      streamCloseFault := Some "unexpected EOF" |}] |};
     archive_closeFault := Some "close city%20plan.zip: input/output error" |}.

(** The reader used on the sample archives: three records per stream. *)
Definition sampleImpl : SeqReaderImpl := seqReaderImpl 3.

(** The scenario's archive once opened at "parcels.zip", the facade over
    it, and the world after that facade is closed. *)
Definition parcelsHandle : zipReadCloser :=
  {| Reader := archive_reader parcels; f := 0 |}.

Definition parcelsOpen : World :=
  set_handles (worldOf "parcels.zip" parcels)
    [{| h_path := "parcels.zip"; h_status := HOpen; h_closeFault := None |}].

Definition parcelsClosed : World :=
  set_handles (worldOf "parcels.zip" parcels)
    [{| h_path := "parcels.zip"; h_status := HClosed; h_closeFault := None |}].

Definition parcelsFacade : @ZipReader sampleImpl :=
  {| sr := Some (@SequentialReaderFromExt sampleImpl
                   {| stream_entry := "parcels.shp"; stream_id := 0;
                      stream_closeFault := None |}
                   (Some {| stream_entry := "parcels.dbf"; stream_id := 1;
                            stream_closeFault := None |}));
     z := archive_reader parcels;
     file := Some parcelsHandle |}.

(** A world with no file on disk. *)
Definition noFiles : World := {| fsys := ∅; handles := []; opens := [] |}.

(** The entries whose name ends with the geometry extension. *)
Definition isShape (e : zipFile) : bool := HasSuffix (Name e) ".shp".

(** The byte [c] does not occur in [s]. *)
Definition noByte (c : ascii) (s : string) : Prop := c ∉ bytes s.

(** [firstNamed name fs e]: [e] is the first entry of [fs] whose name is
    [name], the one the loop of [openFromZIP] stops at. *)
Inductive firstNamed (name : string) : list zipFile -> zipFile -> Prop :=
| firstNamed_here (e : zipFile) (fs : list zipFile) :
    Name e = name -> firstNamed name (e :: fs) e
| firstNamed_later (e' e : zipFile) (fs : list zipFile) :
    Name e' <> name -> firstNamed name fs e -> firstNamed name (e' :: fs) e.

(** Some entry of the directory has the name [name]. *)
Definition hasEntry (rd : zipReader) (name : string) : bool :=
  existsb (fun e => String.eqb (Name e) name) (File rd).

(** The world after [OpenZip] on the scenario's archive. *)
Definition parcelsLoaded : World :=
  {| fsys := fsys parcelsOpen; handles := handles parcelsOpen;
     opens := ["parcels.shp"; "parcels.dbf"] |}.

(** A facade over the geometry stream of [cityPlan] that owns no handle,
    and the world after [Close] of the scenario's facade. *)
Definition planFacade : @ZipReader sampleImpl :=
  {| sr := Some (@SequentialReaderFromExt sampleImpl
                   {| stream_entry := "plan.shp"; stream_id := 0;
                      stream_closeFault := Some "unexpected EOF" |} None);
     z := archive_reader cityPlan;
     file := None |}.

Definition parcelsDone : World :=
  {| fsys := fsys parcelsOpen; handles := handles parcelsClosed;
     opens := opens parcelsLoaded |}.

(** An archive with two entries of the same name, the first of which
    does not open. *)
Definition twins : Archive :=
  {| archive_reader :=
       {| File := [{| Name := "roads.shx"; openFault := Some "zip: checksum error";
                      streamCloseFault := None |};
                   entry "roads.shx"] |};
     archive_closeFault := None |}.

(** * Properties *)

(** ** Byte sequences *)

Section Bytes.

Local Open Scope list_scope.

Lemma str_bytes (s : string) : str (bytes s) = s.
Proof. apply string_of_list_ascii_of_string. Qed.

Lemma bytes_str (l : list ascii) : bytes (str l) = l.
Proof. apply list_ascii_of_string_of_list_ascii. Qed.

Lemma bytes_inj (s t : string) : bytes s = bytes t -> s = t.
Proof.
  intros E. rewrite <- (str_bytes s), <- (str_bytes t). now rewrite E.
Qed.

Lemma bytes_append (s t : string) :
  bytes (s ++ t)%string = bytes s ++ bytes t.
Proof.
  induction s as [|c s IH]; simpl; [reflexivity|].
  unfold bytes in *. simpl. now rewrite IH.
Qed.

Lemma str_app (l k : list ascii) : str (l ++ k) = (str l ++ str k)%string.
Proof.
  apply bytes_inj. now rewrite bytes_append, !bytes_str.
Qed.

Lemma len_append (s t : string) : len (s ++ t)%string = len s + len t.
Proof. unfold len. now rewrite bytes_append, length_app. Qed.

Lemma byte_eqb_true (a b : ascii) : byte_eqb a b = true <-> a = b.
Proof. apply Ascii.eqb_eq. Qed.

Lemma byte_eqb_false (a b : ascii) : byte_eqb a b = false <-> a <> b.
Proof. apply Ascii.eqb_neq. Qed.

End Bytes.

Lemma string_app_assoc (s t u : string) : (s ++ t) ++ u = s ++ t ++ u.
Proof. apply bytes_inj. rewrite !bytes_append. symmetry. apply app_assoc. Qed.

(** ** strings.HasSuffix, strings.TrimSuffix *)

Lemma HasSuffix_app (p suffix : string) : HasSuffix (p ++ suffix) suffix = true.
Proof.
  unfold HasSuffix, from. rewrite len_append.
  apply andb_true_intro. split.
  - apply Nat.leb_le. lia.
  - apply String.eqb_eq.
    replace (len p + len suffix - len suffix) with (length (bytes p))
      by (unfold len; lia).
    now rewrite bytes_append, drop_app_length, str_bytes.
Qed.

Lemma HasSuffix_inv (s suffix : string) :
  HasSuffix s suffix = true ->
  s = (upto (len s - len suffix) s ++ suffix)%string.
Proof.
  unfold HasSuffix, from, upto. intros [_ E%String.eqb_eq]%andb_prop.
  remember (len s - len suffix) as k eqn:Hk. clear Hk.
  rewrite <- E, <- str_app, take_drop. symmetry. apply str_bytes.
Qed.

(** [HasSuffix s suffix] holds exactly when [s] ends with [suffix]. *)
Lemma HasSuffix_spec (s suffix : string) :
  HasSuffix s suffix = true <-> exists p, s = (p ++ suffix)%string.
Proof.
  split.
  - intros H. eexists. now apply HasSuffix_inv.
  - intros [p ->]. apply HasSuffix_app.
Qed.

Lemma TrimSuffix_app (p suffix : string) : TrimSuffix (p ++ suffix) suffix = p.
Proof.
  unfold TrimSuffix. rewrite HasSuffix_app. unfold upto.
  rewrite len_append.
  replace (len p + len suffix - len suffix) with (length (bytes p))
    by (unfold len; lia).
  now rewrite bytes_append, take_app_length, str_bytes.
Qed.

Lemma TrimSuffix_empty (s : string) : TrimSuffix s "" = s.
Proof.
  unfold TrimSuffix. destruct (HasSuffix s ""); [|reflexivity].
  unfold upto. change (len "") with 0. rewrite Nat.sub_0_r.
  unfold len. now rewrite firstn_all, str_bytes.
Qed.

(** ** path.Ext *)

Section Ext.

Local Open Scope list_scope.

Lemma at_middle (d : list ascii) (c : ascii) (r : list ascii) :
  at_ (str (d ++ c :: r)) (length d) = Some c.
Proof. unfold at_. rewrite bytes_str. now apply list_lookup_middle. Qed.

(** The scan walks left over bytes that are neither a separator nor a
    dot. *)
Lemma Ext_loop_skip (b d r : list ascii) :
  "/"%char ∉ b -> "."%char ∉ b ->
  Ext_loop (length d + length b) (str (d ++ b ++ r)) =
  Ext_loop (length d) (str (d ++ b ++ r)).
Proof.
  revert r. induction b as [|c b IH] using rev_ind; intros r Hs Hd.
  - simpl. now rewrite Nat.add_0_r.
  - apply not_elem_of_app in Hs as [Hs Hc1], Hd as [Hd Hc2].
    apply not_elem_of_cons in Hc1 as [Hc1 _], Hc2 as [Hc2 _].
    rewrite length_app. simpl length.
    replace (length d + (length b + 1)) with (S (length d + length b)) by lia.
    replace (d ++ (b ++ [c]) ++ r) with (d ++ b ++ c :: r)
      by now rewrite <- (app_assoc b).
    cbn [Ext_loop].
    replace (at_ (str (d ++ b ++ c :: r)) (length d + length b))
      with (Some c).
    2:{ rewrite app_assoc, <- length_app. symmetry. apply at_middle. }
    assert (byte_eqb c "/" = false) as -> by (apply byte_eqb_false; congruence).
    assert (byte_eqb c "." = false) as -> by (apply byte_eqb_false; congruence).
    now apply IH.
Qed.

Lemma Ext_bytes_dot (d e : list ascii) :
  "/"%char ∉ e -> "."%char ∉ e ->
  Ext (str (d ++ "."%char :: e)) = str ("."%char :: e).
Proof.
  intros Hs Hd. unfold Ext, len. rewrite bytes_str.
  pose proof (Ext_loop_skip e (d ++ ["."%char]) [] Hs Hd) as H.
  rewrite app_nil_r, <- app_assoc in H. simpl app in H.
  rewrite length_app in H. simpl length in H.
  replace (length (d ++ "."%char :: e)) with (length d + 1 + length e)
    by (rewrite length_app; simpl; lia).
  rewrite H, Nat.add_1_r. cbn [Ext_loop]. rewrite at_middle. simpl.
  unfold from. now rewrite bytes_str, drop_app_length.
Qed.

Lemma Ext_bytes_none (d b : list ascii) :
  "/"%char ∉ b -> "."%char ∉ b ->
  d = [] \/ (exists d0, d = d0 ++ ["/"%char]) ->
  Ext (str (d ++ b)) = ""%string.
Proof.
  intros Hs Hd Hdir. unfold Ext, len. rewrite bytes_str, length_app.
  pose proof (Ext_loop_skip b d [] Hs Hd) as H. rewrite app_nil_r in H.
  rewrite H. clear H.
  destruct Hdir as [-> | [d0 ->]]; [reflexivity|].
  rewrite length_app. simpl length. rewrite Nat.add_1_r. cbn [Ext_loop].
  rewrite <- app_assoc. simpl app. now rewrite at_middle.
Qed.

End Ext.

(** [path.Ext] of a name whose last element has a dot is the text from the
    final dot on. *)
Lemma Ext_dot (stem ext : string) :
  noByte "/" ext -> noByte "." ext ->
  Ext (stem ++ "." ++ ext) = "." ++ ext.
Proof.
  intros Hs Hd.
  rewrite <- (str_bytes (stem ++ "." ++ ext)), bytes_append.
  change (bytes ("." ++ ext)) with ("."%char :: bytes ext).
  rewrite Ext_bytes_dot by assumption.
  change ("."%char :: bytes ext) with (bytes ("." ++ ext)).
  apply str_bytes.
Qed.

(** [path.Ext] of a name whose last element has no dot is empty. *)
Lemma Ext_none (dir base : string) :
  dir = "" \/ HasSuffix dir "/" = true ->
  noByte "/" base -> noByte "." base ->
  Ext (dir ++ base) = "".
Proof.
  intros Hdir Hs Hd.
  rewrite <- (str_bytes (dir ++ base)), bytes_append.
  apply Ext_bytes_none; [assumption..|].
  destruct Hdir as [-> | [p ->]%HasSuffix_spec]; [now left|right].
  exists (bytes p). apply bytes_append.
Qed.

Lemma noByte_shp_slash : noByte "/" "shp".
Proof.
  unfold noByte. simpl.
  repeat (apply not_elem_of_cons; split; [discriminate|]). apply not_elem_of_nil.
Qed.

Lemma noByte_shp_dot : noByte "." "shp".
Proof.
  unfold noByte. simpl.
  repeat (apply not_elem_of_cons; split; [discriminate|]). apply not_elem_of_nil.
Qed.

(** ** Companion derivation *)

(** The two derived names: a name [stem.ext] gives [stem.dbf]; a name
    whose last element has no dot gets ".dbf" appended; and for a name
    ending in ".shp" trimming ".shp" and trimming [path.Ext] give the
    same name. *)
Lemma companion_names :
  (forall stem ext : string,
      noByte "/" ext -> noByte "." ext ->
      dbfNameOfName (stem ++ "." ++ ext) = stem ++ ".dbf") /\
  (forall dir base : string,
      dir = "" \/ HasSuffix dir "/" = true ->
      noByte "/" base -> noByte "." base ->
      dbfNameOfName (dir ++ base) = dir ++ base ++ ".dbf") /\
  (forall name : string,
      HasSuffix name ".shp" = true ->
      dbfNameOfShape name = dbfNameOfName name /\
      exists stem, name = stem ++ ".shp" /\ dbfNameOfShape name = stem ++ ".dbf").
Proof.
  assert (Hnamed : forall stem ext : string,
             noByte "/" ext -> noByte "." ext ->
             dbfNameOfName (stem ++ "." ++ ext) = stem ++ ".dbf").
  { intros stem ext Hs Hd. unfold dbfNameOfName.
    now rewrite Ext_dot, TrimSuffix_app by assumption. }
  split; [exact Hnamed|]. split.
  - intros dir base Hdir Hs Hd. unfold dbfNameOfName.
    rewrite Ext_none, TrimSuffix_empty by assumption.
    apply string_app_assoc.
  - intros name [stem ->]%HasSuffix_spec.
    assert (dbfNameOfShape (stem ++ ".shp") = stem ++ ".dbf") as Hauto.
    { unfold dbfNameOfShape. now rewrite TrimSuffix_app. }
    split; [|now exists stem].
    rewrite Hauto. symmetry.
    apply (Hnamed stem "shp" noByte_shp_slash noByte_shp_dot).
Qed.

(** ** The entry resolver *)

Lemma shapesInZip_loop_filter (fs acc : list zipFile) :
  shapesInZip_loop fs acc = (acc ++ List.filter isShape fs)%list.
Proof.
  revert acc. induction fs as [|e fs IH]; intros acc; simpl.
  - now rewrite app_nil_r.
  - rewrite IH. unfold isShape.
    destruct (HasSuffix (Name e) ".shp"); [|reflexivity].
    now rewrite <- app_assoc.
Qed.

(** [shapesInZip] keeps the entries whose name ends with ".shp", in the
    order of the directory. *)
Lemma shapesInZip_filter (rd : zipReader) :
  shapesInZip rd = List.filter isShape (File rd).
Proof. unfold shapesInZip. now rewrite shapesInZip_loop_filter. Qed.

Lemma elem_of_shapesInZip (rd : zipReader) (e : zipFile) :
  e ∈ shapesInZip rd <-> e ∈ File rd /\ isShape e = true.
Proof.
  rewrite shapesInZip_filter, !list_elem_of_In. apply filter_In.
Qed.

Lemma firstNamed_elem (name : string) (fs : list zipFile) (e : zipFile) :
  firstNamed name fs e -> e ∈ fs /\ Name e = name.
Proof.
  induction 1 as [e fs H | e' e fs Hne _ [IH1 IH2]].
  - split; [apply list_elem_of_here | exact H].
  - split; [now apply list_elem_of_further | exact IH2].
Qed.

Lemma firstNamed_exists (name : string) (fs : list zipFile) (e0 : zipFile) :
  e0 ∈ fs -> Name e0 = name -> exists e, firstNamed name fs e.
Proof.
  induction fs as [|e' fs IH]; intros Hin Hname.
  - now apply elem_of_nil in Hin.
  - destruct (decide (Name e' = name)) as [Heq | Hne].
    + exists e'. now constructor.
    + apply elem_of_cons in Hin as [-> | Hin]; [contradiction|].
      destruct (IH Hin Hname) as [e He]. exists e. now constructor.
Qed.

Lemma openFromZIP_absent (rd : zipReader) (name : string) (w : World) :
  (forall e, e ∈ File rd -> Name e <> name) ->
  openFromZIP rd name w = (Err (ErrNoSuchFile name), w).
Proof.
  unfold openFromZIP. induction (File rd) as [|e fs IH]; intros H; simpl.
  - reflexivity.
  - destruct (String.eqb_spec (Name e) name) as [Heq | _].
    + exfalso. apply (H e); [apply list_elem_of_here | exact Heq].
    + apply IH. intros e' He'. apply H. now apply list_elem_of_further.
Qed.

Lemma openFromZIP_first (rd : zipReader) (name : string) (w : World)
    (e : zipFile) :
  firstNamed name (File rd) e -> openFromZIP rd name w = zipFile_Open e w.
Proof.
  unfold openFromZIP. induction 1 as [e fs H | e' e fs Hne _ IH]; simpl.
  - now rewrite (proj2 (String.eqb_eq _ _) H).
  - now rewrite (proj2 (String.eqb_neq _ _) Hne).
Qed.

(** The lookup either finds no entry of that name, or opens the first one. *)
Lemma openFromZIP_cases (rd : zipReader) (name : string) (w : World) :
  (forall e, e ∈ File rd -> Name e <> name) \/
  (exists e, firstNamed name (File rd) e).
Proof.
  induction (File rd) as [|e fs IH].
  - left. intros e He. now apply elem_of_nil in He.
  - destruct (decide (Name e = name)) as [Heq | Hne].
    + right. exists e. now constructor.
    + destruct IH as [IH | [e0 IH]].
      * left. intros e' [-> | He']%elem_of_cons; [exact Hne | now apply IH].
      * right. exists e0. now constructor.
Qed.

Lemma zipFile_Open_ok (e : zipFile) (w : World) :
  openFault e = None ->
  zipFile_Open e w =
    (Ok {| stream_entry := Name e; stream_id := length (opens w);
           stream_closeFault := streamCloseFault e |},
     log_open w (Name e)).
Proof. unfold zipFile_Open. now intros ->. Qed.

Lemma zipFile_Open_kind (e : zipFile) (w w' : World) (err : error) :
  zipFile_Open e w = (Err err, w') -> kind err = Foreign.
Proof.
  unfold zipFile_Open. destruct (openFault e); intros [= <- _]; reflexivity.
Qed.

(** If the lookup returns a stream, it is the stream of an entry with
    exactly the requested name. *)
Lemma openFromZIP_ok_inv (rd : zipReader) (name : string) (w w' : World)
    (st : Stream) :
  openFromZIP rd name w = (Ok st, w') ->
  stream_entry st = name /\ exists e, e ∈ File rd /\ Name e = name.
Proof.
  intros H. destruct (openFromZIP_cases rd name w) as [Habs | [e He]].
  - rewrite openFromZIP_absent in H by assumption. discriminate.
  - rewrite (openFromZIP_first _ _ _ _ He) in H.
    apply firstNamed_elem in He as [Hin Hname].
    unfold zipFile_Open in H. destruct (openFault e); [discriminate|].
    injection H as <- _. simpl. split; [exact Hname|]. now exists e.
Qed.

(** The only geometry entry is the entry its own name resolves to. *)
Lemma sole_shape_first (rd : zipReader) (e : zipFile) :
  shapesInZip rd = [e] -> firstNamed (Name e) (File rd) e.
Proof.
  intros H.
  assert (Hin : e ∈ shapesInZip rd) by (rewrite H; apply list_elem_of_here).
  apply elem_of_shapesInZip in Hin as [Hin Hshp].
  destruct (firstNamed_exists _ _ _ Hin eq_refl) as [e' He'].
  destruct (firstNamed_elem _ _ _ He') as [Hin' Hname'].
  assert (He : e' ∈ shapesInZip rd).
  { apply elem_of_shapesInZip. split; [exact Hin'|].
    unfold isShape in *. now rewrite Hname'. }
  rewrite H in He. apply list_elem_of_singleton in He. now subst e'.
Qed.

(** ** The constructors *)

Section Constructors.

Context {impl : SeqReaderImpl}.

Lemma load_no_shape (zr : ZipReader) (w : World) :
  length (List.filter isShape (File (z zr))) = 0 ->
  loadSHPAndMaybeDBF zr w = (Some ErrNoShp, zr, w).
Proof.
  unfold loadSHPAndMaybeDBF. rewrite shapesInZip_filter.
  destruct (List.filter isShape (File (z zr))); [reflexivity|discriminate].
Qed.

Lemma load_many_shapes (zr : ZipReader) (w : World) :
  1 < length (List.filter isShape (File (z zr))) ->
  loadSHPAndMaybeDBF zr w = (Some ErrMultipleShp, zr, w).
Proof.
  unfold loadSHPAndMaybeDBF. rewrite shapesInZip_filter.
  destruct (List.filter isShape (File (z zr))) as [|e [|e' l]]; simpl;
    [lia | lia | reflexivity].
Qed.

Lemma load_ok_one_shape (zr zr' : ZipReader) (w w' : World) :
  loadSHPAndMaybeDBF zr w = (None, zr', w') ->
  length (List.filter isShape (File (z zr))) = 1.
Proof.
  unfold loadSHPAndMaybeDBF. rewrite shapesInZip_filter.
  destruct (List.filter isShape (File (z zr))) as [|e [|e' l]];
    [discriminate | reflexivity | discriminate].
Qed.

(** With one geometry entry, the outcome is that of opening it; the
    lookup of the attribute table cannot make it fail. *)
Lemma load_one_shape (zr : ZipReader) (w : World) (e : zipFile) :
  shapesInZip (z zr) = [e] ->
  loadSHPAndMaybeDBF zr w =
    match zipFile_Open e w with
    | (Err err, w1) => (Some err, zr, w1)
    | (Ok shp, w1) =>
        let '(dbf, w2) := openFromZIP (z zr) (dbfNameOfShape (Name e)) w1 in
        (None, set_sr zr (SequentialReaderFromExt shp (orNil dbf)), w2)
    end.
Proof.
  intros H. unfold loadSHPAndMaybeDBF. rewrite H.
  now rewrite (openFromZIP_first _ _ _ _ (sole_shape_first _ _ H)).
Qed.

(** [OpenZip] after the archive is opened, and [OpenZipReader] after it
    is read, are [loadSHPAndMaybeDBF] on the new facade. *)
Lemma OpenZip_opened (path : string) (w w1 : World) (rc : zipReadCloser) :
  zip_OpenReader path w = (Ok rc, w1) ->
  OpenZip path w =
    match loadSHPAndMaybeDBF {| sr := None; z := Reader rc; file := Some rc |} w1
    with
    | (Some err, _, w2) => (Err err, w2)
    | (None, zr', w2) => (Ok zr', w2)
    end.
Proof. unfold OpenZip. now intros ->. Qed.

(** C1. Auto-discovery, by path once the archive is opened and by
    stream in any world, succeeds only on an archive with exactly one
    entry whose name ends with ".shp"; with no such entry it fails with an
    error of kind EntryNotFound, with more than one with an error of kind
    AmbiguousEntry, and in both cases it returns no facade. *)
Theorem C1_auto_discovery (path : string) (w : World) (rd : zipReader) :
  let count (d : zipReader) := length (List.filter isShape (File d)) in
  (forall rc w1, zip_OpenReader path w = (Ok rc, w1) ->
     (forall zr w', OpenZip path w = (Ok zr, w') -> count (Reader rc) = 1) /\
     (count (Reader rc) = 0 ->
        exists err w', OpenZip path w = (Err err, w') /\
          kind err = EntryNotFound /\ value (OpenZip path w).1 = None) /\
     (1 < count (Reader rc) ->
        exists err w', OpenZip path w = (Err err, w') /\
          kind err = AmbiguousEntry /\ value (OpenZip path w).1 = None)) /\
  ((forall zr w', OpenZipReader (ArchiveBytes rd) w = (Ok zr, w') ->
      count rd = 1) /\
   (count rd = 0 ->
      exists err w', OpenZipReader (ArchiveBytes rd) w = (Err err, w') /\
        kind err = EntryNotFound /\
        value (OpenZipReader (ArchiveBytes rd) w).1 = None) /\
   (1 < count rd ->
      exists err w', OpenZipReader (ArchiveBytes rd) w = (Err err, w') /\
        kind err = AmbiguousEntry /\
        value (OpenZipReader (ArchiveBytes rd) w).1 = None)).
Proof.
  intros count. split.
  - intros rc w1 Hopen. rewrite (OpenZip_opened _ _ _ _ Hopen).
    set (zr0 := {| sr := None; z := Reader rc; file := Some rc |}).
    change (Reader rc) with (z zr0).
    split; [|split].
    + intros zr w' H.
      destruct (loadSHPAndMaybeDBF zr0 w1) as [[[err|] zr'] w2] eqn:E;
        [discriminate|]. now apply load_ok_one_shape in E.
    + intros H0. rewrite (load_no_shape zr0 w1 H0).
      exists ErrNoShp, w1. now repeat split.
    + intros H2. rewrite (load_many_shapes zr0 w1 H2).
      exists ErrMultipleShp, w1. now repeat split.
  - unfold OpenZipReader.
    set (zr0 := {| sr := None; z := rd; file := None |}).
    change (count rd) with (count (z zr0)).
    split; [|split].
    + intros zr w' H.
      destruct (loadSHPAndMaybeDBF zr0 w) as [[[err|] zr'] w2] eqn:E;
        [discriminate|]. now apply load_ok_one_shape in E.
    + intros H0. rewrite (load_no_shape zr0 w H0).
      exists ErrNoShp, w. now repeat split.
    + intros H2. rewrite (load_many_shapes zr0 w H2).
      exists ErrMultipleShp, w. now repeat split.
Qed.

End Constructors.

Section PairOpening.

Context {impl : SeqReaderImpl}.

Lemma OpenShapeFromZip_opened (path name : string) (w w1 : World)
    (rc : zipReadCloser) :
  zip_OpenReader path w = (Ok rc, w1) ->
  OpenShapeFromZip path name w =
    match openFromZIP (Reader rc) name w1 with
    | (Err err, w2) => (Err err, w2)
    | (Ok shp, w2) =>
        let '(dbf, w3) := openFromZIP (Reader rc) (dbfNameOfName name) w2 in
        (Ok {| sr := Some (SequentialReaderFromExt shp (orNil dbf));
               z := Reader rc; file := Some rc |}, w3)
    end.
Proof. unfold OpenShapeFromZip. now intros ->. Qed.

(** C3. Opening the pair fails only if the primary entry cannot be
    opened.  Once the primary stream is open, whatever the lookup of the
    derived companion name returns, construction succeeds: an error of
    that lookup (no such entry, or an entry that cannot be opened) is
    dropped and the reader is built with an absent companion.  This holds
    for the pair opened by [loadSHPAndMaybeDBF] (auto-discovery), in any
    world, hence by [OpenZipReader], and by [OpenShapeFromZip] (open by
    name) once the archive is opened. *)
Theorem C3_companion_optional (zr : ZipReader) (rd : zipReader)
    (path name : string) (w : World) :
  (forall e shp w2 dbf w3,
      shapesInZip (z zr) = [e] ->
      openFromZIP (z zr) (Name e) w = (Ok shp, w2) ->
      openFromZIP (z zr) (dbfNameOfShape (Name e)) w2 = (dbf, w3) ->
      loadSHPAndMaybeDBF zr w =
        (None,
         set_sr zr
           (SequentialReaderFromExt shp
              match dbf with Ok d => Some d | Err _ => None end),
         w3)) /\
  (forall e err zr' w',
      shapesInZip (z zr) = [e] ->
      loadSHPAndMaybeDBF zr w = (Some err, zr', w') ->
      openFromZIP (z zr) (Name e) w = (Err err, w')) /\
  (forall e shp w2 dbf w3,
      shapesInZip rd = [e] ->
      openFromZIP rd (Name e) w = (Ok shp, w2) ->
      openFromZIP rd (dbfNameOfShape (Name e)) w2 = (dbf, w3) ->
      OpenZipReader (ArchiveBytes rd) w =
        (Ok {| sr := Some (SequentialReaderFromExt shp
                             match dbf with Ok d => Some d | Err _ => None end);
               z := rd; file := None |},
         w3)) /\
  (forall rc w1, zip_OpenReader path w = (Ok rc, w1) ->
     (forall shp w2 dbf w3,
         openFromZIP (Reader rc) name w1 = (Ok shp, w2) ->
         openFromZIP (Reader rc) (dbfNameOfName name) w2 = (dbf, w3) ->
         OpenShapeFromZip path name w =
           (Ok {| sr := Some (SequentialReaderFromExt shp
                                match dbf with Ok d => Some d | Err _ => None end);
                  z := Reader rc; file := Some rc |},
            w3)) /\
     (forall err w',
         OpenShapeFromZip path name w = (Err err, w') ->
         openFromZIP (Reader rc) name w1 = (Err err, w'))).
Proof.
  assert (Hload : forall (zr0 : ZipReader) e shp w2 dbf w3,
             shapesInZip (z zr0) = [e] ->
             openFromZIP (z zr0) (Name e) w = (Ok shp, w2) ->
             openFromZIP (z zr0) (dbfNameOfShape (Name e)) w2 = (dbf, w3) ->
             loadSHPAndMaybeDBF zr0 w =
               (None,
                set_sr zr0
                  (SequentialReaderFromExt shp
                     match dbf with Ok d => Some d | Err _ => None end),
                w3)).
  { intros zr0 e shp w2 dbf w3 He Hshp Hdbf.
    unfold loadSHPAndMaybeDBF. rewrite He, Hshp.
    change (TrimSuffix (Name e) ".shp" ++ ".dbf") with (dbfNameOfShape (Name e)).
    now rewrite Hdbf. }
  split; [apply Hload|]. split; [|split].
  - intros e err zr' w' He H.
    unfold loadSHPAndMaybeDBF in H. rewrite He in H.
    destruct (openFromZIP (z zr) (Name e) w) as [[shp|err'] w2].
    + destruct (openFromZIP (z zr) (TrimSuffix (Name e) ".shp" ++ ".dbf") w2).
      discriminate.
    + now injection H as -> _ ->.
  - intros e shp w2 dbf w3 He Hshp Hdbf. unfold OpenZipReader.
    now rewrite (Hload {| sr := None; z := rd; file := None |}
                   e shp w2 dbf w3 He Hshp Hdbf).
  - intros rc w1 Hopen. split.
    + intros shp w2 dbf w3 Hshp Hdbf.
      rewrite (OpenShapeFromZip_opened _ _ _ _ _ Hopen), Hshp. now rewrite Hdbf.
    + intros err w' H.
      rewrite (OpenShapeFromZip_opened _ _ _ _ _ Hopen) in H.
      destruct (openFromZIP (Reader rc) name w1) as [[shp|err'] w2].
      * destruct (openFromZIP (Reader rc) (dbfNameOfName name) w2). discriminate.
      * now injection H as -> ->.
Qed.

(** C8. Once the archive is open, [OpenShapeFromZip] fails with an error
    of kind EntryNotFound exactly when no entry has the requested name;
    when the first entry of that name opens, a facade owning the archive
    is returned, whatever the extension of the name. *)
Theorem C8_open_by_name (path name : string) (w w1 : World)
    (rc : zipReadCloser) :
  zip_OpenReader path w = (Ok rc, w1) ->
  ((exists err w', OpenShapeFromZip path name w = (Err err, w') /\
                   kind err = EntryNotFound) <->
   (forall e, e ∈ File (Reader rc) -> Name e <> name)) /\
  (forall e, firstNamed name (File (Reader rc)) e -> openFault e = None ->
     exists zr w', OpenShapeFromZip path name w = (Ok zr, w') /\
                   file zr = Some rc /\ z zr = Reader rc /\ is_Some (sr zr)).
Proof.
  intros Hopen. rewrite (OpenShapeFromZip_opened _ _ _ _ _ Hopen). split.
  - split.
    + intros (err & w' & H & Hkind).
      destruct (openFromZIP_cases (Reader rc) name w1) as [Habs | [e He]];
        [exact Habs|exfalso].
      rewrite (openFromZIP_first _ _ _ _ He) in H.
      destruct (zipFile_Open e w1) as [[shp|err'] w2] eqn:E.
      * destruct (openFromZIP (Reader rc) (dbfNameOfName name) w2). discriminate.
      * injection H as -> _. apply zipFile_Open_kind in E. congruence.
    + intros Habs. rewrite openFromZIP_absent by assumption.
      now exists (ErrNoSuchFile name), w1.
  - intros e He Hfault.
    rewrite (openFromZIP_first _ _ _ _ He), (zipFile_Open_ok _ _ Hfault).
    destruct (openFromZIP (Reader rc) (dbfNameOfName name) (log_open w1 (Name e)))
      as [dbf w3].
    eexists _, w3. repeat split. simpl. now eexists.
Qed.

End PairOpening.

(** ** The companion name the constructors look up *)

Section CompanionLookup.

Context {impl : SeqReaderImpl}.

(** C7. The name the constructors look up for the attribute table is
    the primary name with its extension replaced by ".dbf", the
    extension being the text from the final dot of the last path element.
    [OpenShapeFromZip] on a name [stem.ext] builds the reader with what
    the lookup of [stem.dbf] returns, and on a name whose last element
    has no dot with what the lookup of the name followed by ".dbf"
    returns; [loadSHPAndMaybeDBF], whose primary name [stem.shp] ends in
    ".shp", builds it with what the lookup of [stem.dbf] returns.  The
    two derivations, [path.Ext] trimmed and ".shp" trimmed, agree on
    names ending in ".shp". *)
Theorem C7_companion_name :
  (forall path w rc w1 stem ext shp w2,
      zip_OpenReader path w = (Ok rc, w1) ->
      noByte "/" ext -> noByte "." ext ->
      openFromZIP (Reader rc) (stem ++ "." ++ ext) w1 = (Ok shp, w2) ->
      OpenShapeFromZip path (stem ++ "." ++ ext) w =
        (Ok {| sr := Some (SequentialReaderFromExt shp
                             (orNil (openFromZIP (Reader rc) (stem ++ ".dbf") w2).1));
               z := Reader rc; file := Some rc |},
         (openFromZIP (Reader rc) (stem ++ ".dbf") w2).2)) /\
  (forall path w rc w1 dir base shp w2,
      zip_OpenReader path w = (Ok rc, w1) ->
      dir = "" \/ HasSuffix dir "/" = true ->
      noByte "/" base -> noByte "." base ->
      openFromZIP (Reader rc) (dir ++ base) w1 = (Ok shp, w2) ->
      OpenShapeFromZip path (dir ++ base) w =
        (Ok {| sr := Some (SequentialReaderFromExt shp
                             (orNil (openFromZIP (Reader rc)
                                       (dir ++ base ++ ".dbf") w2).1));
               z := Reader rc; file := Some rc |},
         (openFromZIP (Reader rc) (dir ++ base ++ ".dbf") w2).2)) /\
  (forall zr w e stem shp w2,
      shapesInZip (z zr) = [e] ->
      Name e = stem ++ ".shp" ->
      openFromZIP (z zr) (Name e) w = (Ok shp, w2) ->
      loadSHPAndMaybeDBF zr w =
        (None,
         set_sr zr
           (SequentialReaderFromExt shp
              (orNil (openFromZIP (z zr) (stem ++ ".dbf") w2).1)),
         (openFromZIP (z zr) (stem ++ ".dbf") w2).2)) /\
  (forall name : string,
      HasSuffix name ".shp" = true ->
      dbfNameOfShape name = dbfNameOfName name /\
      exists stem, name = stem ++ ".shp" /\ dbfNameOfShape name = stem ++ ".dbf").
Proof.
  destruct companion_names as (Hdot & Hnone & Hauto).
  assert (Hnamed : forall path w rc w1 name shp w2,
             zip_OpenReader path w = (Ok rc, w1) ->
             openFromZIP (Reader rc) name w1 = (Ok shp, w2) ->
             OpenShapeFromZip path name w =
               (Ok {| sr := Some (SequentialReaderFromExt shp
                             (orNil (openFromZIP (Reader rc)
                                       (dbfNameOfName name) w2).1));
                      z := Reader rc; file := Some rc |},
                (openFromZIP (Reader rc) (dbfNameOfName name) w2).2)).
  { intros path w rc w1 name shp w2 Hopen Hshp.
    rewrite (OpenShapeFromZip_opened _ _ _ _ _ Hopen), Hshp.
    now destruct (openFromZIP (Reader rc) (dbfNameOfName name) w2). }
  split; [|split; [|split]].
  - intros path w rc w1 stem ext shp w2 Hopen Hs Hd Hshp.
    rewrite (Hnamed _ _ _ _ _ _ _ Hopen Hshp). now rewrite (Hdot stem ext Hs Hd).
  - intros path w rc w1 dir base shp w2 Hopen Hdir Hs Hd Hshp.
    rewrite (Hnamed _ _ _ _ _ _ _ Hopen Hshp).
    now rewrite (Hnone dir base Hdir Hs Hd).
  - intros zr w e stem shp w2 He Hname Hshp.
    unfold loadSHPAndMaybeDBF. rewrite He, Hshp. cbv zeta.
    rewrite Hname, TrimSuffix_app.
    now destruct (openFromZIP (z zr) (stem ++ ".dbf") w2).
  - exact Hauto.
Qed.

End CompanionLookup.

(** ** The listing operation *)

Lemma zip_OpenReader_world (path : string) (w w1 : World) (rc : zipReadCloser) :
  zip_OpenReader path w = (Ok rc, w1) ->
  exists a, fsys w !! path = Some (Zip a) /\ Reader rc = archive_reader a /\
    f rc = length (handles w) /\
    fsys w1 = fsys w /\ opens w1 = opens w /\
    handles w1 =
      (handles w ++ [{| h_path := path; h_status := HOpen;
                        h_closeFault := archive_closeFault a |}])%list.
Proof.
  unfold zip_OpenReader. destruct (fsys w !! path) as [[msg|a]|]; try discriminate.
  intros [= <- <-]. exists a. now repeat split.
Qed.

Lemma zip_OpenReader_zip (path : string) (w : World) (a : Archive) :
  fsys w !! path = Some (Zip a) ->
  exists rc w1, zip_OpenReader path w = (Ok rc, w1) /\
                Reader rc = archive_reader a.
Proof. unfold zip_OpenReader. intros ->. now eexists _, _. Qed.

(** C6. On a path that holds an archive, [ShapesInZip] returns the names
    of the entries whose name ends with ".shp", in directory order; it
    opens no entry stream and leaves the archives as they are; and it
    fails only when the archive cannot be opened. *)
Theorem C6_ShapesInZip (path : string) (w : World) :
  (forall a, fsys w !! path = Some (Zip a) ->
     exists w1,
       ShapesInZip path w =
         (Ok (map Name (List.filter isShape (File (archive_reader a)))), w1) /\
       opens w1 = opens w /\ fsys w1 = fsys w) /\
  (forall err w',
     ShapesInZip path w = (Err err, w') <->
     zip_OpenReader path w = (Err err, w')).
Proof.
  split.
  - intros a Ha. destruct (zip_OpenReader_zip _ _ _ Ha) as (rc & w1 & Hopen & Hrd).
    exists w1. unfold ShapesInZip. rewrite Hopen, shapesInZip_filter, Hrd.
    destruct (zip_OpenReader_world _ _ _ _ Hopen) as (_ & _ & _ & _ & Hfs & Hop & _).
    now repeat split.
  - intros err w'. unfold ShapesInZip.
    destruct (zip_OpenReader path w) as [[rc|err'] w1].
    + split; discriminate.
    + split; intros [= -> ->]; reflexivity.
Qed.

(** ** Matching of names *)

Section Matching.

Context {impl : SeqReaderImpl}.

Lemma dbfName_suffix (name : string) :
  HasSuffix (dbfNameOfShape name) ".dbf" = true /\
  HasSuffix (dbfNameOfName name) ".dbf" = true.
Proof. split; apply HasSuffix_app. Qed.

(** C10. Names are matched byte for byte.  The geometry entries are the
    entries whose name ends with the bytes ".shp", so "DATA.SHP" is none;
    a lookup returns only an entry of exactly the requested name, and the
    companion name looked up ends with ".dbf"; an archive none of whose
    names ends with ".shp" fails auto-discovery like an archive without
    entries. *)
Theorem C10_byte_exact_names :
  (forall rd e,
      e ∈ shapesInZip rd <->
      e ∈ File rd /\ exists p, Name e = p ++ ".shp") /\
  shapesInZip {| File := [entry "DATA.SHP"] |} = [] /\
  (exists w',
      ShapesInZip "data.zip" (worldOf "data.zip" (archiveOf ["DATA.SHP"])) =
        (Ok [], w')) /\
  (forall rd name w st w',
      openFromZIP rd name w = (Ok st, w') ->
      stream_entry st = name /\ exists e, e ∈ File rd /\ Name e = name) /\
  (forall rd name w st w',
      (openFromZIP rd (dbfNameOfShape name) w = (Ok st, w') \/
       openFromZIP rd (dbfNameOfName name) w = (Ok st, w')) ->
      HasSuffix (stream_entry st) ".dbf" = true) /\
  (forall rd w,
      (forall e, e ∈ File rd -> HasSuffix (Name e) ".shp" = false) ->
      OpenZipReader (ArchiveBytes rd) w = (Err ErrNoShp, w) /\
      OpenZipReader (ArchiveBytes rd) w =
        OpenZipReader (ArchiveBytes {| File := [] |}) w) /\
  (forall w,
      OpenZipReader (ArchiveBytes {| File := [entry "DATA.SHP"; entry "DATA.dbf"] |}) w =
        (Err ErrNoShp, w)) /\
  (forall w, exists shp w',
      OpenZipReader (ArchiveBytes {| File := [entry "data.shp"; entry "data.DBF"] |}) w =
        (Ok {| sr := Some (SequentialReaderFromExt shp None);
               z := {| File := [entry "data.shp"; entry "data.DBF"] |};
               file := None |}, w')).
Proof.
  repeat apply conj.
  - intros rd e. rewrite elem_of_shapesInZip. unfold isShape.
    now rewrite HasSuffix_spec.
  - reflexivity.
  - now eexists.
  - intros rd name w st w'. apply openFromZIP_ok_inv.
  - intros rd name w st w' [H | H]; apply openFromZIP_ok_inv in H as [-> _];
      apply dbfName_suffix.
  - intros rd w H.
    assert (Hnone : length (List.filter isShape (File rd)) = 0).
    { induction (File rd) as [|e fs IH]; [reflexivity|]. simpl.
      unfold isShape at 1. rewrite (H e) by apply list_elem_of_here.
      apply IH. intros e' He'. apply H. now apply list_elem_of_further. }
    unfold OpenZipReader.
    now rewrite (load_no_shape {| sr := None; z := rd; file := None |} w Hnone).
  - reflexivity.
  - intros w. now eexists _, _.
Qed.

End Matching.

(** ** The cursor protocol *)

Section Forwarding.

Context {impl : SeqReaderImpl}.

Lemma forward_some {A : Type}
    (m : SequentialReader -> A * SequentialReader)
    (rd : SequentialReader) (zd : zipReader) (fl : option zipReadCloser) :
  forward m {| sr := Some rd; z := zd; file := fl |} =
    Return ((m rd).1, {| sr := Some (m rd).2; z := zd; file := fl |}).
Proof. unfold forward. simpl. now destruct (m rd). Qed.

Lemma facadeCall_readerCall (c : call) (rd : SequentialReader)
    (zd : zipReader) (fl : option zipReadCloser) :
  facadeCall c {| sr := Some rd; z := zd; file := fl |} =
    Return ((readerCall c rd).1,
            {| sr := Some (readerCall c rd).2; z := zd; file := fl |}).
Proof.
  destruct c; simpl;
    unfold Next, Shape_, Attribute, Fields, Err_; rewrite forward_some;
    match goal with |- context [?m rd] => now destruct (m rd) end.
Qed.

(** C9. On a facade wrapping the reader [rd], each of [Next], [Shape],
    [Attribute], [Fields] and [Err] returns what the same call returns on
    [rd], leaves the facade wrapping the reader that call leaves, and
    changes nothing else of the facade; hence every sequence of calls on
    the facade gives the replies of the same sequence on the wrapped
    reader. *)
Theorem C9_forwarding (rd : SequentialReader) (zd : zipReader)
    (fl : option zipReadCloser) :
  let facade (r : SequentialReader) := {| sr := Some r; z := zd; file := fl |} in
  Next (facade rd) = Return ((sr_Next rd).1, facade (sr_Next rd).2) /\
  Shape_ (facade rd) = Return ((sr_Shape rd).1, facade (sr_Shape rd).2) /\
  (forall n, Attribute (facade rd) n =
             Return ((sr_Attribute n rd).1, facade (sr_Attribute n rd).2)) /\
  Fields (facade rd) = Return ((sr_Fields rd).1, facade (sr_Fields rd).2) /\
  Err_ (facade rd) = Return ((sr_Err rd).1, facade (sr_Err rd).2) /\
  (forall cs : list call,
      facadeRun cs (facade rd) =
        Return ((readerRun cs rd).1, facade (readerRun cs rd).2)).
Proof.
  intros facade. unfold facade, Next, Shape_, Attribute, Fields, Err_.
  repeat split; try intros n; try apply forward_some.
  revert rd. induction n as [|c cs IH]; intros rd; [reflexivity|].
  simpl. rewrite facadeCall_readerCall.
  destruct (readerCall c rd) as [r rd1]. simpl. rewrite IH.
  now destruct (readerRun cs rd1).
Qed.

End Forwarding.

(** ** fmt with no operand *)

Section FmtFacts.

Local Open Scope list_scope.
Import Fmt.

(** A format without ['%'] is copied. *)
Lemma doPrintf_plain (l : list ascii) (fuel : nat) :
  "%"%char ∉ l -> length l <= fuel -> doPrintf fuel l = l.
Proof.
  revert fuel. induction l as [|c l IH]; intros fuel Hp Hf.
  - now destruct fuel.
  - destruct fuel as [|fuel]; [simpl in Hf; lia|].
    apply not_elem_of_cons in Hp as [Hc Hp]. simpl.
    assert (byte_eqb c "%" = false) as ->
      by (apply byte_eqb_false; congruence).
    rewrite IH; [reflexivity | assumption | simpl in Hf; lia].
Qed.

Lemma Sprintf0_plain (s : string) : noByte "%" s -> Sprintf0 s = s.
Proof.
  intros H. unfold Sprintf0. rewrite doPrintf_plain; [apply str_bytes|exact H|].
  reflexivity.
Qed.

Lemma skipFlags_length (l : list ascii) : length (skipFlags l) <= length l.
Proof.
  induction l as [|c l IH]; simpl; [lia|].
  destruct (isFlag c); simpl; lia.
Qed.

Lemma parsenum_loop_length (l : list ascii) (num : Z) (isnum : bool) :
  length (parsenum_loop l num isnum).2 <= length l.
Proof.
  revert num isnum. induction l as [|c l IH]; intros num isnum; simpl; [lia|].
  destruct (isDigit c); [|simpl; lia].
  destruct (tooLarge num); [simpl; lia|].
  specialize (IH (num * 10 + (code c - code "0"))%Z true). lia.
Qed.

Lemma argNumber_length (l : list ascii) (good : bool) :
  length (argNumber l good).1.1 <= length l.
Proof.
  unfold argNumber. destruct l as [|c l]; [simpl; lia|].
  destruct (byte_eqb c "["); [|simpl; lia].
  destruct (parseArgNumber (c :: l)) as [[index wid] ok].
  destruct (ok && (0 <=? index)%Z && (index <? 0)%Z); simpl fst;
    rewrite length_drop; lia.
Qed.

Lemma decodeVerb_length (c : ascii) (l : list ascii) :
  length (decodeVerb (c :: l)).2 <= length l.
Proof.
  unfold decodeVerb.
  repeat match goal with
         | |- context [if ?b then _ else _] => destruct b
         | |- context [match ?x with [] => _ | _ :: _ => _ end] => destruct x
         end; simpl; lia.
Qed.

Lemma directive_length (l out rest : list ascii) :
  directive l = (out, Some rest) -> length rest <= length l.
Proof.
  unfold directive.
  pose proof (skipFlags_length l) as H0.
  pose proof (argNumber_length (skipFlags l) true) as H1.
  destruct (argNumber (skipFlags l) true) as [[l1 after1] good1].
  simpl in H1.
  assert (Hw : forall l2 out2 after2 good2,
             (if startsWith "*" l1 then (badWidthString, drop 1 l1, false, good1)
              else let '(_, widPresent, l') := parsenum l1 in
                   ([], l', after1,
                    if after1 && widPresent then false else good1))
             = (out2, l2, after2, good2) -> length l2 <= length l1).
  { intros l2 out2 after2 good2.
    destruct (startsWith "*" l1).
    - intros [= _ <- _ _]. rewrite length_drop. lia.
    - pose proof (parsenum_loop_length l1 0 false) as Hp. unfold parsenum.
      destruct (parsenum_loop l1 0 false) as [[n wp] l']. simpl in Hp.
      now intros [= _ <- _ _]. }
  destruct (if startsWith "*" l1 then _ else _) as [[[out2 l2] after2] good2].
  specialize (Hw _ _ _ _ eq_refl).
  assert (Hp : forall l3 out3 after3 good3,
             (if startsWith "." l2
              then
                let good := if after2 then false else good2 in
                let '(l, afterIndex, good) := argNumber (drop 1 l2) good in
                if startsWith "*" l
                then (out2 ++ badPrecString, drop 1 l, false, good)
                else let '(_, _, l') := parsenum l in (out2, l', afterIndex, good)
              else (out2, l2, after2, good2))
             = (out3, l3, after3, good3) -> length l3 <= length l2).
  { intros l3 out3 after3 good3. cbv zeta.
    destruct (startsWith "." l2); [|now intros [= _ <- _ _]].
    pose proof (argNumber_length (drop 1 l2) (if after2 then false else good2))
      as Ha.
    destruct (argNumber (drop 1 l2) (if after2 then false else good2))
      as [[la aa] ga]. simpl in Ha. rewrite length_drop in Ha.
    destruct (startsWith "*" la).
    - intros [= _ <- _ _]. rewrite length_drop. lia.
    - pose proof (parsenum_loop_length la 0 false) as Hn. unfold parsenum.
      destruct (parsenum_loop la 0 false) as [[n wp] l']. simpl in Hn.
      intros [= _ <- _ _]. lia. }
  destruct (if startsWith "." l2 then _ else _) as [[[out3 l3] after3] good3].
  specialize (Hp _ _ _ _ eq_refl).
  assert (Hi : forall l4 a4 g4,
             (if after3 then (l3, after3, good3) else argNumber l3 good3)
             = (l4, a4, g4) -> length l4 <= length l3).
  { intros l4 a4 g4. destruct after3; [now intros [= <- _ _]|].
    pose proof (argNumber_length l3 good3) as Ha.
    destruct (argNumber l3 good3) as [[la aa] ga]. simpl in Ha.
    now intros [= <- _ _]. }
  destruct (if after3 then _ else _) as [[l4 a4] g4].
  specialize (Hi _ _ _ eq_refl).
  destruct l4 as [|c l4]; [discriminate|].
  pose proof (decodeVerb_length c l4) as Hv.
  destruct (decodeVerb (c :: l4)) as [verb rest']. simpl in Hv, Hi.
  repeat match goal with
         | |- context [if ?b then _ else _] => destruct b
         end; intros [= _ <-]; lia.
Qed.

(** The loop of [doPrintf] needs no more rounds than the format has
    bytes. *)
Lemma doPrintf_fuel (n m : nat) (l : list ascii) :
  length l <= n -> length l <= m -> doPrintf n l = doPrintf m l.
Proof.
  revert m l. induction n as [|n IH]; intros m l Hn Hm.
  - destruct l; [|simpl in Hn; lia]. now destruct m.
  - destruct l as [|c l]; [now destruct m|].
    destruct m as [|m]; [simpl in Hm; lia|]. simpl in Hn, Hm. simpl.
    destruct (byte_eqb c "%").
    + destruct (directive l) as [out [rest|]] eqn:E; [|reflexivity].
      apply directive_length in E. f_equal. apply IH; lia.
    + f_equal. apply IH; lia.
Qed.

Lemma hasPrefixBytes_app (p l : list ascii) : hasPrefixBytes (p ++ l) p = true.
Proof.
  induction p as [|c p IH]; simpl; [now destruct l|].
  rewrite IH. unfold byte_eqb. now rewrite Ascii.eqb_refl.
Qed.

Lemma containsBytes_app (a m b : list ascii) :
  containsBytes (a ++ m ++ b) m = true.
Proof.
  induction a as [|c a IH].
  - pose proof (hasPrefixBytes_app m b) as H. change ([] ++ m ++ b) with (m ++ b).
    destruct (m ++ b); cbn [containsBytes]; now rewrite H.
  - cbn [app containsBytes]. rewrite IH. apply orb_true_r.
Qed.

End FmtFacts.

Lemma Contains_append (a m b : string) : Contains (a ++ m ++ b) m = true.
Proof.
  unfold Contains. rewrite !bytes_append. apply containsBytes_app.
Qed.

Lemma noByte_append (c : ascii) (s t : string) :
  noByte c (s ++ t) <-> noByte c s /\ noByte c t.
Proof. unfold noByte. rewrite bytes_append. apply not_elem_of_app. Qed.

(** ** Close *)

Section Closing.

Context {impl : SeqReaderImpl}.

Lemma addError_some (s : string) (e : error) :
  String.eqb (addError s (Some e)) "" = false.
Proof.
  apply String.eqb_neq. intros H. apply (f_equal len) in H.
  unfold addError in H. rewrite !len_append in H.
  change (len ". ") with 2 in H. change (len "") with 0 in H. lia.
Qed.

(** What [Close] computes on a facade that wraps a reader. *)
Lemma Close_unfold (zr : ZipReader) (rd : SequentialReader) (w : World) :
  sr zr = Some rd ->
  Close zr w =
    Return
      (let s1 := addError "" (sr_Close rd).1 in
       let s2 :=
         match file zr with
         | Some rc => addError s1 (zipReadCloser_Close rc w).1
         | None => s1
         end in
       if negb (String.eqb s2 "") then Some (ErrAggregate s2) else None,
       set_sr zr (sr_Close rd).2,
       match file zr with
       | Some rc => (zipReadCloser_Close rc w).2
       | None => w
       end).
Proof.
  intros H. unfold Close. rewrite H. destruct (sr_Close rd) as [err rd'].
  destruct (file zr) as [rc|]; [|reflexivity].
  now destruct (zipReadCloser_Close rc w).
Qed.

(** Both closes are attempted: whatever the close of the reader
    reports, the world after [Close] is the world after the close of the
    container handle. *)
Lemma Close_attempts_both (zr : ZipReader) (rd : SequentialReader)
    (rc : zipReadCloser) (w : World) :
  sr zr = Some rd -> file zr = Some rc ->
  exists err,
    Close zr w =
      Return (err, set_sr zr (sr_Close rd).2, (zipReadCloser_Close rc w).2).
Proof.
  intros Hsr Hfile. rewrite (Close_unfold _ _ _ Hsr), Hfile. now eexists.
Qed.

(** When neither close fails, [Close] returns no error. *)
Lemma Close_clean (zr : ZipReader) (rd : SequentialReader) (w : World) :
  sr zr = Some rd ->
  (sr_Close rd).1 = None ->
  (forall rc, file zr = Some rc -> (zipReadCloser_Close rc w).1 = None) ->
  exists zr' w', Close zr w = Return (None, zr', w').
Proof.
  intros Hsr H1 H2. rewrite (Close_unfold _ _ _ Hsr), H1.
  destruct (file zr) as [rc|]; [rewrite (H2 rc eq_refl)|]; now eexists _, _.
Qed.

(** When both closes fail with messages free of ['%'], the message of the
    error [Close] returns is the two messages, each followed by ". ". *)
Lemma Close_both_fail_plain (zr : ZipReader) (rd : SequentialReader)
    (rc : zipReadCloser) (w : World) (e1 e2 : error) :
  sr zr = Some rd -> file zr = Some rc ->
  (sr_Close rd).1 = Some e1 ->
  (zipReadCloser_Close rc w).1 = Some e2 ->
  noByte "%" (Error e1) -> noByte "%" (Error e2) ->
  exists err zr' w',
    Close zr w = Return (Some err, zr', w') /\
    Error err = (Error e1 ++ ". ") ++ (Error e2 ++ ". ") /\
    Contains (Error err) (Error e1) = true /\
    Contains (Error err) (Error e2) = true.
Proof.
  intros Hsr Hfile H1 H2 P1 P2.
  rewrite (Close_unfold _ _ _ Hsr), Hfile, H1, H2. cbv zeta.
  rewrite addError_some. eexists _, _, _. split; [reflexivity|].
  assert (E : Error (ErrAggregate (addError (addError "" (Some e1)) (Some e2)))
              = (Error e1 ++ ". ") ++ (Error e2 ++ ". ")).
  { cbn [Error addError]. change ("" ++ (Error e1 ++ ". ")) with (Error e1 ++ ". ").
    apply Sprintf0_plain. rewrite !noByte_append. repeat split; try assumption;
      unfold noByte; simpl;
      repeat (apply not_elem_of_cons; split; [discriminate|]);
      apply not_elem_of_nil. }
  rewrite E. split; [reflexivity|]. split.
  - rewrite string_app_assoc.
    apply (Contains_append "" (Error e1) (". " ++ Error e2 ++ ". ")).
  - rewrite <- (string_app_assoc (Error e1 ++ ". ") (Error e2) ". ").
    rewrite string_app_assoc.
    apply (Contains_append (Error e1 ++ ". ") (Error e2) ". ").
Qed.

(** A closed container handle stays closed, and closing it again fails. *)
Lemma zipReadCloser_Close_again (rc : zipReadCloser) (w : World) :
  exists msg,
    zipReadCloser_Close rc (zipReadCloser_Close rc w).2 =
      (Some (ErrForeign msg), (zipReadCloser_Close rc w).2).
Proof.
  unfold zipReadCloser_Close at 2 3.
  destruct (handles w !! f rc) as [h|] eqn:E.
  - destruct (h_status h) eqn:Hs; simpl.
    + unfold zipReadCloser_Close. simpl.
      rewrite list_lookup_insert_eq by now apply lookup_lt_Some in E.
      simpl. now eexists.
    + unfold zipReadCloser_Close. rewrite E, Hs. now eexists.
  - simpl. unfold zipReadCloser_Close. rewrite E. now eexists.
Qed.


End Closing.

(** ** Container handles *)

Lemma openFromZIP_handles (rd : zipReader) (name : string) (w : World) :
  handles (openFromZIP rd name w).2 = handles w.
Proof.
  unfold openFromZIP. induction (File rd) as [|e fs IH]; simpl; [reflexivity|].
  destruct (String.eqb (Name e) name); [|exact IH].
  unfold zipFile_Open. now destruct (openFault e).
Qed.

(** [ShapesInZip] returns with the handle it opened still open. *)
Lemma ShapesInZip_handle_open (path : string) (w : World) (a : Archive) :
  fsys w !! path = Some (Zip a) ->
  exists names w',
    ShapesInZip path w = (Ok names, w') /\
    handles w' =
      (handles w ++ [{| h_path := path; h_status := HOpen;
                        h_closeFault := archive_closeFault a |}])%list.
Proof.
  intros H. unfold ShapesInZip, zip_OpenReader. rewrite H. now eexists _, _.
Qed.

Section Handles.

Context {impl : SeqReaderImpl}.

Lemma loadSHPAndMaybeDBF_handles (zr : ZipReader) (w : World) :
  handles (loadSHPAndMaybeDBF zr w).2 = handles w.
Proof.
  unfold loadSHPAndMaybeDBF.
  destruct (shapesInZip (z zr)) as [|e [|e' l]]; [reflexivity| |reflexivity].
  pose proof (openFromZIP_handles (z zr) (Name e) w) as H1.
  destruct (openFromZIP (z zr) (Name e) w) as [[shp|err] w1]; [|exact H1].
  pose proof (openFromZIP_handles (z zr)
                (TrimSuffix (Name e) ".shp" ++ ".dbf") w1) as H2.
  destruct (openFromZIP (z zr) (TrimSuffix (Name e) ".shp" ++ ".dbf") w1).
  simpl in *. congruence.
Qed.

(** When [OpenZip] fails after opening the archive, the handle it opened
    is still open and no facade holds it. *)
Lemma OpenZip_failure_handle_open (path : string) (w w' : World)
    (a : Archive) (err : error) :
  fsys w !! path = Some (Zip a) ->
  OpenZip path w = (Err err, w') ->
  handles w' =
    (handles w ++ [{| h_path := path; h_status := HOpen;
                      h_closeFault := archive_closeFault a |}])%list.
Proof.
  intros Ha. unfold OpenZip, zip_OpenReader. rewrite Ha.
  match goal with
  | |- context [loadSHPAndMaybeDBF ?zr ?w0] =>
      pose proof (loadSHPAndMaybeDBF_handles zr w0) as H;
      destruct (loadSHPAndMaybeDBF zr w0) as [[[e|] zr'] w2]
  end; [|discriminate].
  intros [= _ <-]. exact H.
Qed.

End Handles.

(** ** The sample archives *)

(** C2. The archive at "city%20plan.zip": the close of the reader and
    the close of the file both fail, [Close] returns one error, but its
    message is the accumulated text run through the format scanner of
    [fmt.Errorf], in which "%20p" has become "%!p(MISSING)"; the message
    of the second underlying error is not part of it. *)
Theorem C2_close_message_as_format :
  exists zr w rd rc,
    OpenZip (impl := sampleImpl) "city%20plan.zip"
      (worldOf "city%20plan.zip" cityPlan) = (Ok zr, w) /\
    sr zr = Some rd /\ file zr = Some rc /\
    (sr_Close rd).1 = Some (ErrForeign "unexpected EOF") /\
    (zipReadCloser_Close rc w).1 =
      Some (ErrForeign "close city%20plan.zip: input/output error") /\
    exists err zr' w',
      Close zr w = Return (Some err, zr', w') /\
      Error err =
        "unexpected EOF. close city%!p(MISSING)lan.zip: input/output error. " /\
      Contains (Error err) "unexpected EOF" = true /\
      Contains (Error err) "close city%20plan.zip: input/output error" = false.
Proof.
  do 4 eexists. split; [reflexivity|]. split; [reflexivity|].
  split; [reflexivity|]. split; [reflexivity|]. split; [reflexivity|].
  do 3 eexists. split; [reflexivity|]. repeat split; vm_compute; reflexivity.
Qed.


(** C5. The archive handle opened by [ShapesInZip], and the one opened
    by [OpenZip] and [OpenShapeFromZip] when they fail after opening the
    archive, is still open when the call returns, and the caller gets no
    facade to close it with; the handle of a facade that is returned is
    released by its [Close]. *)
Theorem C5_archive_left_open :
  (exists names w',
      ShapesInZip "parcels.zip" (worldOf "parcels.zip" parcels) =
        (Ok names, w') /\
      map h_status (handles w') = [HOpen]) /\
  (exists err w',
      OpenZip (impl := sampleImpl) "notes.zip"
        (worldOf "notes.zip" (archiveOf ["readme.txt"])) = (Err err, w') /\
      map h_status (handles w') = [HOpen]) /\
  (exists err w',
      OpenShapeFromZip (impl := sampleImpl) "parcels.zip" "roads.shp"
        (worldOf "parcels.zip" parcels) = (Err err, w') /\
      map h_status (handles w') = [HOpen]) /\
  (exists zr w err zr' w',
      OpenZip (impl := sampleImpl) "parcels.zip"
        (worldOf "parcels.zip" parcels) = (Ok zr, w) /\
      Close zr w = Return (err, zr', w') /\
      map h_status (handles w') = [HClosed]).
Proof.
  repeat split.
  - do 2 eexists. split; reflexivity.
  - do 2 eexists. split; reflexivity.
  - do 2 eexists. split; reflexivity.
  - do 5 eexists. split; [reflexivity|]. split; reflexivity.
Qed.

(** ** The theorems at the sample archives *)

Lemma C1_auto_discovery_witness :
  zip_OpenReader "parcels.zip" (worldOf "parcels.zip" parcels) =
    (Ok parcelsHandle, parcelsOpen) /\
  length (List.filter isShape (File (Reader parcelsHandle))) = 1 /\
  exists err w',
    OpenZipReader (impl := sampleImpl)
      (ArchiveBytes (archive_reader (archiveOf ["readme.txt"])))
      noFiles = (Err err, w') /\
    kind err = EntryNotFound /\
    value (OpenZipReader (impl := sampleImpl)
             (ArchiveBytes (archive_reader (archiveOf ["readme.txt"])))
             noFiles).1 = None.
Proof.
  pose (H := eq_refl : zip_OpenReader "parcels.zip"
                         (worldOf "parcels.zip" parcels) =
                       (Ok parcelsHandle, parcelsOpen)).
  destruct (C1_auto_discovery (impl := sampleImpl) "parcels.zip"
              (worldOf "parcels.zip" parcels)
              (archive_reader (archiveOf ["readme.txt"])))
    as [Hzip _].
  destruct (C1_auto_discovery (impl := sampleImpl) "parcels.zip" noFiles
              (archive_reader (archiveOf ["readme.txt"])))
    as [_ [_ [Hnone _]]].
  destruct (Hzip _ _ H) as [Hok _].
  split; [exact H|]. split.
  - eapply Hok. reflexivity.
  - apply Hnone. reflexivity.
Defined.

Lemma C3_companion_optional_witness :
  zip_OpenReader "roads.zip" (worldOf "roads.zip" (archiveOf ["roads.shp"])) =
    (Ok {| Reader := archive_reader (archiveOf ["roads.shp"]); f := 0 |},
     set_handles (worldOf "roads.zip" (archiveOf ["roads.shp"]))
       [{| h_path := "roads.zip"; h_status := HOpen; h_closeFault := None |}]) /\
  (exists shp w3,
      OpenShapeFromZip (impl := sampleImpl) "roads.zip" "roads.shp"
        (worldOf "roads.zip" (archiveOf ["roads.shp"])) =
        (Ok {| sr := Some (SequentialReaderFromExt shp None);
               z := archive_reader (archiveOf ["roads.shp"]);
               file := Some {| Reader := archive_reader (archiveOf ["roads.shp"]);
                               f := 0 |} |},
         w3)) /\
  (exists shp w3,
      OpenZipReader (impl := sampleImpl)
        (ArchiveBytes (archive_reader (archiveOf ["roads.shp"]))) noFiles =
        (Ok {| sr := Some (SequentialReaderFromExt shp None);
               z := archive_reader (archiveOf ["roads.shp"]);
               file := None |},
         w3)).
Proof.
  pose (H := eq_refl : zip_OpenReader "roads.zip"
                         (worldOf "roads.zip" (archiveOf ["roads.shp"])) =
    (Ok {| Reader := archive_reader (archiveOf ["roads.shp"]); f := 0 |},
     set_handles (worldOf "roads.zip" (archiveOf ["roads.shp"]))
       [{| h_path := "roads.zip"; h_status := HOpen; h_closeFault := None |}])).
  split; [exact H|]. split.
  - destruct (C3_companion_optional (impl := sampleImpl)
                {| sr := None; z := archive_reader (archiveOf ["roads.shp"]);
                   file := None |}
                (archive_reader (archiveOf ["roads.shp"]))
                "roads.zip" "roads.shp"
                (worldOf "roads.zip" (archiveOf ["roads.shp"])))
      as (_ & _ & _ & Hnamed).
    destruct (Hnamed _ _ H) as [Hok _].
    eexists _, _. eapply (Hok _ _ (Err (ErrNoSuchFile "roads.dbf"))); reflexivity.
  - destruct (C3_companion_optional (impl := sampleImpl)
                {| sr := None; z := archive_reader (archiveOf ["roads.shp"]);
                   file := None |}
                (archive_reader (archiveOf ["roads.shp"]))
                "roads.zip" "roads.shp" noFiles)
      as (_ & _ & Hstream & _).
    eexists _, _.
    eapply (Hstream (entry "roads.shp") _ _ (Err (ErrNoSuchFile "roads.dbf")));
      reflexivity.
Defined.


Lemma C6_ShapesInZip_witness :
  fsys (worldOf "parcels.zip" parcels) !! "parcels.zip" = Some (Zip parcels) /\
  exists w1,
    ShapesInZip "parcels.zip" (worldOf "parcels.zip" parcels) =
      (Ok ["parcels.shp"], w1) /\
    opens w1 = [] /\ fsys w1 = fsys (worldOf "parcels.zip" parcels).
Proof.
  pose (H := eq_refl : fsys (worldOf "parcels.zip" parcels) !! "parcels.zip" =
                       Some (Zip parcels)).
  split; [exact H|].
  exact (proj1 (C6_ShapesInZip "parcels.zip" (worldOf "parcels.zip" parcels))
           parcels H).
Defined.

Lemma C7_companion_name_witness :
  zip_OpenReader "parcels.zip" (worldOf "parcels.zip" parcels) =
    (Ok parcelsHandle, parcelsOpen) /\
  OpenShapeFromZip (impl := sampleImpl) "parcels.zip" "parcels.shp"
    (worldOf "parcels.zip" parcels) = (Ok parcelsFacade, parcelsLoaded) /\
  loadSHPAndMaybeDBF (impl := sampleImpl)
    {| sr := None; z := archive_reader parcels; file := None |} noFiles =
    (None,
     {| sr := sr parcelsFacade; z := archive_reader parcels; file := None |},
     log_open (log_open noFiles "parcels.shp") "parcels.dbf") /\
  dbfNameOfShape "maps/parcels.shp" = dbfNameOfName "maps/parcels.shp".
Proof.
  pose (H := eq_refl : zip_OpenReader "parcels.zip"
                         (worldOf "parcels.zip" parcels) =
                       (Ok parcelsHandle, parcelsOpen)).
  destruct (C7_companion_name (impl := sampleImpl))
    as (Hdot & _ & Hauto & Hagree).
  assert (Hnil : forall c : ascii, c ∉ @nil ascii)
    by (intros c; apply not_elem_of_nil).
  split; [exact H|]. split; [|split].
  - assert (Hs : noByte "/" "shp" /\ noByte "." "shp").
    { split; unfold noByte; simpl;
        repeat (apply not_elem_of_cons; split; [discriminate|]); apply Hnil. }
    exact (Hdot "parcels.zip" _ _ _ "parcels" "shp"
             {| stream_entry := "parcels.shp"; stream_id := 0;
                stream_closeFault := None |}
             (log_open parcelsOpen "parcels.shp") H (proj1 Hs) (proj2 Hs)
             eq_refl).
  - exact (Hauto {| sr := None; z := archive_reader parcels; file := None |}
             noFiles (entry "parcels.shp") "parcels"
             {| stream_entry := "parcels.shp"; stream_id := 0;
                stream_closeFault := None |}
             (log_open noFiles "parcels.shp") eq_refl eq_refl eq_refl).
  - apply (Hagree "maps/parcels.shp"). reflexivity.
Defined.

Lemma C8_open_by_name_witness :
  zip_OpenReader "parcels.zip" (worldOf "parcels.zip" parcels) =
    (Ok parcelsHandle, parcelsOpen) /\
  (exists zr w',
      OpenShapeFromZip (impl := sampleImpl) "parcels.zip" "parcels.dbf"
        (worldOf "parcels.zip" parcels) = (Ok zr, w') /\
      file zr = Some parcelsHandle) /\
  (exists err w',
      OpenShapeFromZip (impl := sampleImpl) "parcels.zip" "roads.shp"
        (worldOf "parcels.zip" parcels) = (Err err, w') /\
      kind err = EntryNotFound).
Proof.
  pose (H := eq_refl : zip_OpenReader "parcels.zip"
                         (worldOf "parcels.zip" parcels) =
                       (Ok parcelsHandle, parcelsOpen)).
  split; [exact H|]. split.
  - destruct (C8_open_by_name (impl := sampleImpl) "parcels.zip" "parcels.dbf"
                _ _ _ H) as [_ Hfound].
    destruct (Hfound (entry "parcels.dbf")) as (zr & w' & Hz & Hf & _).
    + apply firstNamed_later; [discriminate|]. now apply firstNamed_here.
    + reflexivity.
    + now exists zr, w'.
  - destruct (C8_open_by_name (impl := sampleImpl) "parcels.zip" "roads.shp"
                _ _ _ H) as [[_ Habsent] _].
    apply Habsent. intros e He.
    repeat (apply elem_of_cons in He as [-> | He]; [discriminate|]).
    now apply elem_of_nil in He.
Defined.

Lemma C10_byte_exact_names_witness :
  OpenZipReader (impl := sampleImpl)
    (ArchiveBytes {| File := [entry "DATA.SHP"; entry "notes.txt"] |})
    (worldOf "parcels.zip" parcels) =
    (Err ErrNoShp, worldOf "parcels.zip" parcels).
Proof.
  destruct (C10_byte_exact_names (impl := sampleImpl))
    as (_ & _ & _ & _ & _ & Hnone & _).
  apply Hnone. intros e He.
  repeat (apply elem_of_cons in He as [-> | He]; [reflexivity|]).
  now apply elem_of_nil in He.
Defined.

(** * Further properties of zipreader.go *)

(** ** Failure to open the archive *)

(** X1. When [zip.OpenReader] fails on the path, [OpenZip],
    [OpenShapeFromZip] and [ShapesInZip] return that error and leave the
    world as [zip.OpenReader] left it: no entry is looked up and no stream
    is opened. *)
Theorem X1_open_failure_propagates (impl : SeqReaderImpl)
    (path name : string) (w w' : World) (err : error) :
  zip_OpenReader path w = (Err err, w') ->
  OpenZip path w = (Err err, w') /\
  OpenShapeFromZip path name w = (Err err, w') /\
  ShapesInZip path w = (Err err, w') /\
  w' = w.
Proof.
  intros H. unfold OpenZip, OpenShapeFromZip, ShapesInZip. rewrite H.
  repeat split. unfold zip_OpenReader in H.
  destruct (fsys w !! path) as [[msg|a]|]; now inversion H.
Qed.

Lemma X1_open_failure_propagates_witness :
  zip_OpenReader "missing.zip" (worldOf "parcels.zip" parcels) =
    (Err (ErrForeign "open missing.zip: no such file or directory"),
     worldOf "parcels.zip" parcels) /\
  OpenZip (impl := sampleImpl) "missing.zip" (worldOf "parcels.zip" parcels) =
    (Err (ErrForeign "open missing.zip: no such file or directory"),
     worldOf "parcels.zip" parcels).
Proof.
  pose (H := eq_refl : zip_OpenReader "missing.zip"
                         (worldOf "parcels.zip" parcels) =
    (Err (ErrForeign "open missing.zip: no such file or directory"),
     worldOf "parcels.zip" parcels)).
  split; [exact H|].
  exact (proj1 (X1_open_failure_propagates sampleImpl "missing.zip" "x" _ _ _ H)).
Defined.

(** ** Auto-discovery and open by name *)

Lemma dbfName_agree (name : string) :
  HasSuffix name ".shp" = true -> dbfNameOfShape name = dbfNameOfName name.
Proof.
  intros [stem ->]%HasSuffix_spec. unfold dbfNameOfShape, dbfNameOfName.
  pose proof (Ext_dot stem "shp" noByte_shp_slash noByte_shp_dot) as HE.
  change ("." ++ "shp") with ".shp" in HE. rewrite HE.
  now rewrite !TrimSuffix_app.
Qed.

Lemma ShapesInZip_ok_inv (path : string) (w w1 : World) (names : list string) :
  ShapesInZip path w = (Ok names, w1) ->
  exists rc, zip_OpenReader path w = (Ok rc, w1) /\
             names = map Name (shapesInZip (Reader rc)).
Proof.
  unfold ShapesInZip.
  destruct (zip_OpenReader path w) as [[rc|err] w0]; [|discriminate].
  intros [= <- <-]. now exists rc.
Qed.

Section Discovery.

Context {impl : SeqReaderImpl}.

(** X2. When exactly one entry of the archive has a name ending with
    ".shp" and that entry opens, [OpenZip] succeeds: the facade wraps a
    reader, keeps the directory and owns the handle that was opened. *)
Theorem X2_single_shape_opens (path : string) (w w1 : World)
    (rc : zipReadCloser) (e : zipFile) :
  zip_OpenReader path w = (Ok rc, w1) ->
  shapesInZip (Reader rc) = [e] ->
  openFault e = None ->
  exists zr w',
    OpenZip path w = (Ok zr, w') /\
    is_Some (sr zr) /\ z zr = Reader rc /\ file zr = Some rc.
Proof.
  intros Hopen He Hfault. rewrite (OpenZip_opened _ _ _ _ Hopen).
  rewrite (load_one_shape {| sr := None; z := Reader rc; file := Some rc |}
             w1 e He).
  rewrite (zipFile_Open_ok _ _ Hfault). simpl z.
  destruct (openFromZIP (Reader rc) (dbfNameOfShape (Name e))
              (log_open w1 (Name e))) as [dbf w2].
  eexists _, w2. split; [reflexivity|]. simpl. repeat split. now eexists.
Qed.

(** X3. When [ShapesInZip] lists exactly one name, [OpenZip] on the path
    is [OpenShapeFromZip] on the path and that name: same result, same
    world. *)
Theorem X3_OpenZip_is_open_by_listed_name (path name : string)
    (w w1 : World) :
  ShapesInZip path w = (Ok [name], w1) ->
  OpenZip path w = OpenShapeFromZip path name w.
Proof.
  intros (rc & Hopen & Hnames)%ShapesInZip_ok_inv.
  destruct (shapesInZip (Reader rc)) as [|e [|e' l]] eqn:He; try discriminate.
  injection Hnames as ->.
  rewrite (OpenZip_opened _ _ _ _ Hopen).
  rewrite (OpenShapeFromZip_opened _ _ _ _ _ Hopen).
  rewrite (load_one_shape {| sr := None; z := Reader rc; file := Some rc |}
             w1 e He).
  rewrite (openFromZIP_first _ _ w1 _ (sole_shape_first _ _ He)).
  assert (Hshp : HasSuffix (Name e) ".shp" = true).
  { assert (Hin : e ∈ shapesInZip (Reader rc))
      by (rewrite He; apply list_elem_of_here).
    now apply elem_of_shapesInZip in Hin as [_ Hin]. }
  rewrite <- (dbfName_agree _ Hshp). simpl z.
  destruct (zipFile_Open e w1) as [[shp|err] w2]; [|reflexivity].
  now destruct (openFromZIP (Reader rc) (dbfNameOfShape (Name e)) w2).
Qed.

(** X4. The list [ShapesInZip] returns tells how [OpenZip] on the same
    path ends: an empty list means it fails for want of a ".shp" entry,
    a list of two or more names that it fails for having several, and it
    succeeds only when the list has one name; in the two failing cases
    nothing is opened beyond the archive. *)
Theorem X4_listing_predicts_OpenZip (path : string) (w w1 : World)
    (names : list string) :
  ShapesInZip path w = (Ok names, w1) ->
  (names = [] -> OpenZip path w = (Err ErrNoShp, w1)) /\
  (1 < length names -> OpenZip path w = (Err ErrMultipleShp, w1)) /\
  (forall zr w', OpenZip path w = (Ok zr, w') -> exists name, names = [name]).
Proof.
  intros (rc & Hopen & ->)%ShapesInZip_ok_inv.
  rewrite (OpenZip_opened _ _ _ _ Hopen). unfold loadSHPAndMaybeDBF. simpl z.
  destruct (shapesInZip (Reader rc)) as [|e [|e' l]]; simpl.
  - repeat split; [lia | discriminate].
  - repeat split; [discriminate | lia |]. intros _ _ _. now exists (Name e).
  - repeat split; discriminate.
Qed.

End Discovery.

Lemma X2_single_shape_opens_witness :
  zip_OpenReader "parcels.zip" (worldOf "parcels.zip" parcels) =
    (Ok parcelsHandle, parcelsOpen) /\
  exists zr w',
    OpenZip (impl := sampleImpl) "parcels.zip" (worldOf "parcels.zip" parcels) =
      (Ok zr, w') /\
    file zr = Some parcelsHandle.
Proof.
  pose (H := eq_refl : zip_OpenReader "parcels.zip"
                         (worldOf "parcels.zip" parcels) =
                       (Ok parcelsHandle, parcelsOpen)).
  split; [exact H|].
  destruct (X2_single_shape_opens (impl := sampleImpl) "parcels.zip" _ _ _
              (entry "parcels.shp") H eq_refl eq_refl)
    as (zr & w' & Hok & _ & _ & Hfile).
  now exists zr, w'.
Defined.

Lemma X3_OpenZip_is_open_by_listed_name_witness :
  ShapesInZip "parcels.zip" (worldOf "parcels.zip" parcels) =
    (Ok ["parcels.shp"], parcelsOpen) /\
  OpenZip (impl := sampleImpl) "parcels.zip" (worldOf "parcels.zip" parcels) =
    OpenShapeFromZip "parcels.zip" "parcels.shp" (worldOf "parcels.zip" parcels).
Proof.
  pose (H := eq_refl : ShapesInZip "parcels.zip" (worldOf "parcels.zip" parcels) =
                       (Ok ["parcels.shp"], parcelsOpen)).
  split; [exact H|].
  exact (X3_OpenZip_is_open_by_listed_name (impl := sampleImpl) _ _ _ _ H).
Defined.

Lemma X4_listing_predicts_OpenZip_witness :
  ShapesInZip "notes.zip" (worldOf "notes.zip" (archiveOf ["readme.txt"])) =
    (Ok [],
     set_handles (worldOf "notes.zip" (archiveOf ["readme.txt"]))
       [{| h_path := "notes.zip"; h_status := HOpen; h_closeFault := None |}]) /\
  OpenZip (impl := sampleImpl) "notes.zip"
    (worldOf "notes.zip" (archiveOf ["readme.txt"])) =
    (Err ErrNoShp,
     set_handles (worldOf "notes.zip" (archiveOf ["readme.txt"]))
       [{| h_path := "notes.zip"; h_status := HOpen; h_closeFault := None |}]).
Proof.
  pose (H := eq_refl :
          ShapesInZip "notes.zip" (worldOf "notes.zip" (archiveOf ["readme.txt"])) =
    (Ok [],
     set_handles (worldOf "notes.zip" (archiveOf ["readme.txt"]))
       [{| h_path := "notes.zip"; h_status := HOpen; h_closeFault := None |}])).
  split; [exact H|].
  exact (proj1 (X4_listing_predicts_OpenZip (impl := sampleImpl) _ _ _ _ H)
           eq_refl).
Defined.

(** ** Streams opened by a lookup *)

Lemma openFromZIP_ok_hasEntry (rd : zipReader) (name : string) (w w' : World)
    (st : Stream) :
  openFromZIP rd name w = (Ok st, w') -> hasEntry rd name = true.
Proof.
  unfold openFromZIP, hasEntry. induction (File rd) as [|e fs IH]; simpl.
  - discriminate.
  - destruct (String.eqb (Name e) name); [reflexivity|exact IH].
Qed.

(** A lookup calls [f.Open()] once when an entry has the name, whether
    or not the stream opens, and not at all otherwise; it changes nothing
    else. *)
Lemma openFromZIP_world (rd : zipReader) (name : string) (w : World) :
  opens (openFromZIP rd name w).2 =
    (opens w ++ if hasEntry rd name then [name] else [])%list /\
  fsys (openFromZIP rd name w).2 = fsys w.
Proof.
  unfold openFromZIP, hasEntry. induction (File rd) as [|e fs IH]; simpl.
  - now rewrite app_nil_r.
  - destruct (String.eqb_spec (Name e) name) as [<-|_]; [|exact IH].
    unfold zipFile_Open. now destruct (openFault e).
Qed.

Section Streams.

Context {impl : SeqReaderImpl}.

(** X5. [OpenShapeFromZip] opens no stream but those of the requested
    entry and of its companion: on success the streams opened are the
    requested name and, when an entry has the companion name, that name;
    on failure after the archive is opened, the requested name if an
    entry has it (its stream did not open) and nothing otherwise. *)
Theorem X5_streams_opened_by_name (path name : string) (w w1 w' : World)
    (rc : zipReadCloser) (r : result ZipReader) :
  zip_OpenReader path w = (Ok rc, w1) ->
  OpenShapeFromZip path name w = (r, w') ->
  opens w' =
    (opens w ++
       match r with
       | Ok _ =>
           name :: (if hasEntry (Reader rc) (dbfNameOfName name)
                    then [dbfNameOfName name] else [])
       | Err _ => if hasEntry (Reader rc) name then [name] else []
       end)%list.
Proof.
  intros Hopen. rewrite (OpenShapeFromZip_opened _ _ _ _ _ Hopen).
  destruct (zip_OpenReader_world _ _ _ _ Hopen) as (_ & _ & _ & _ & _ & Hop & _).
  rewrite <- Hop.
  pose proof (openFromZIP_world (Reader rc) name w1) as [H1 _].
  destruct (openFromZIP (Reader rc) name w1) as [[shp|err] w2] eqn:E.
  - apply openFromZIP_ok_hasEntry in E. rewrite E in H1.
    pose proof (openFromZIP_world (Reader rc) (dbfNameOfName name) w2) as [H2 _].
    destruct (openFromZIP (Reader rc) (dbfNameOfName name) w2) as [dbf w3].
    intros [= <- <-]. simpl in *. rewrite H2, H1. now rewrite <- app_assoc.
  - intros [= <- <-]. exact H1.
Qed.

End Streams.

Lemma X5_streams_opened_by_name_witness :
  zip_OpenReader "parcels.zip" (worldOf "parcels.zip" parcels) =
    (Ok parcelsHandle, parcelsOpen) /\
  OpenShapeFromZip (impl := sampleImpl) "parcels.zip" "parcels.shp"
    (worldOf "parcels.zip" parcels) = (Ok parcelsFacade, parcelsLoaded) /\
  opens parcelsLoaded = ["parcels.shp"; "parcels.dbf"].
Proof.
  pose (H := eq_refl : zip_OpenReader "parcels.zip"
                         (worldOf "parcels.zip" parcels) =
                       (Ok parcelsHandle, parcelsOpen)).
  pose (H' := eq_refl : OpenShapeFromZip (impl := sampleImpl) "parcels.zip"
                          "parcels.shp" (worldOf "parcels.zip" parcels) =
                        (Ok parcelsFacade, parcelsLoaded)).
  split; [exact H|]. split; [exact H'|].
  exact (X5_streams_opened_by_name (impl := sampleImpl) _ _ _ _ _ _ _ H H').
Defined.

(** ** Facades over a stream *)

Section StreamFacade.

Context {impl : SeqReaderImpl}.

Lemma load_ok_facade (zr zr' : ZipReader) (w w' : World) :
  loadSHPAndMaybeDBF zr w = (None, zr', w') ->
  is_Some (sr zr') /\ z zr' = z zr /\ file zr' = file zr.
Proof.
  unfold loadSHPAndMaybeDBF.
  destruct (shapesInZip (z zr)) as [|e [|e' l]]; try discriminate.
  destruct (openFromZIP (z zr) (Name e) w) as [[shp|err] w1]; [|discriminate].
  destruct (openFromZIP (z zr) (TrimSuffix (Name e) ".shp" ++ ".dbf") w1).
  intros [= <- _]. simpl. repeat split. now eexists.
Qed.

Lemma loadSHPAndMaybeDBF_fsys (zr : ZipReader) (w : World) :
  fsys (loadSHPAndMaybeDBF zr w).2 = fsys w.
Proof.
  unfold loadSHPAndMaybeDBF.
  destruct (shapesInZip (z zr)) as [|e [|e' l]]; [reflexivity| |reflexivity].
  pose proof (openFromZIP_world (z zr) (Name e) w) as [_ H1].
  destruct (openFromZIP (z zr) (Name e) w) as [[shp|err] w1]; [|exact H1].
  pose proof (openFromZIP_world (z zr)
                (TrimSuffix (Name e) ".shp" ++ ".dbf") w1) as [_ H2].
  destruct (openFromZIP (z zr) (TrimSuffix (Name e) ".shp" ++ ".dbf") w1).
  simpl in *. congruence.
Qed.

(** X6. [OpenZipReader] opens no file: whatever it returns, the open
    handles and the archives are as before; the facade it returns owns
    no handle, so that closing it changes nothing in the world. *)
Theorem X6_OpenZipReader_owns_no_handle (zipFileStream : ioReader)
    (w w' : World) (r : result ZipReader) :
  OpenZipReader zipFileStream w = (r, w') ->
  handles w' = handles w /\ fsys w' = fsys w /\
  forall zr, r = Ok zr ->
    file zr = None /\
    forall w2 err zr2 w3, Close zr w2 = Return (err, zr2, w3) -> w3 = w2.
Proof.
  unfold OpenZipReader. destruct zipFileStream as [msg|msg|rd].
  - intros [= <- <-]. repeat split; discriminate.
  - intros [= <- <-]. repeat split; discriminate.
  - set (zr0 := {| sr := None; z := rd; file := None |}).
    pose proof (loadSHPAndMaybeDBF_handles zr0 w) as Hh.
    pose proof (loadSHPAndMaybeDBF_fsys zr0 w) as Hf.
    destruct (loadSHPAndMaybeDBF zr0 w) as [[[err|] zr'] w1] eqn:E;
      intros [= <- <-]; (split; [exact Hh|]); (split; [exact Hf|]);
      intros zr [= <-].
    apply load_ok_facade in E as ([rd' Hsr] & _ & Hfile).
    split; [exact Hfile|]. intros w2 err zr2 w3.
    rewrite (Close_unfold _ _ _ Hsr), Hfile. now intros [= _ _ <-].
Qed.

Lemma load_ok_reader (zr zr' : ZipReader) (w w' : World) :
  loadSHPAndMaybeDBF zr w = (None, zr', w') ->
  exists shp dbf,
    sr zr' = Some (SequentialReaderFromExt shp dbf) /\
    HasSuffix (stream_entry shp) ".shp" = true /\
    forall d, dbf = Some d -> stream_entry d = dbfNameOfShape (stream_entry shp).
Proof.
  unfold loadSHPAndMaybeDBF.
  destruct (shapesInZip (z zr)) as [|e [|e' l]] eqn:He; try discriminate.
  assert (Hshp : HasSuffix (Name e) ".shp" = true).
  { assert (Hin : e ∈ shapesInZip (z zr)) by (rewrite He; apply list_elem_of_here).
    now apply elem_of_shapesInZip in Hin as [_ Hin]. }
  destruct (openFromZIP (z zr) (Name e) w) as [[shp|err] w1] eqn:E1;
    [|discriminate].
  apply openFromZIP_ok_inv in E1 as [E1 _].
  destruct (openFromZIP (z zr) (TrimSuffix (Name e) ".shp" ++ ".dbf") w1)
    as [dbf w2] eqn:E2.
  intros [= <- _]. exists shp, (orNil dbf). simpl. rewrite E1.
  split; [reflexivity|]. split; [exact Hshp|].
  intros d Hd. destruct dbf as [d'|err]; [|discriminate].
  injection Hd as ->. now apply openFromZIP_ok_inv in E2 as [E2 _].
Qed.

(** X7. The reader of a facade.  A facade [OpenZip] or [OpenZipReader]
    returns wraps the reader built by [SequentialReaderFromExt] over a
    stream of an entry whose name ends in ".shp" and, if a companion
    stream is given, a stream of the entry named by that name with ".shp"
    replaced by ".dbf"; a facade [OpenShapeFromZip] returns wraps the
    reader built over a stream of the requested entry and, if any, a
    stream of the entry named by the derived companion name.  On a
    facade that wraps no reader, as the zero value of the type, [Close]
    and every cursor call panic. *)
Theorem X7_constructed_facade_reader :
  (forall path w zr w', OpenZip path w = (Ok zr, w') ->
     exists shp dbf,
       sr zr = Some (SequentialReaderFromExt shp dbf) /\
       HasSuffix (stream_entry shp) ".shp" = true /\
       forall d, dbf = Some d ->
                 stream_entry d = dbfNameOfShape (stream_entry shp)) /\
  (forall stream w zr w', OpenZipReader stream w = (Ok zr, w') ->
     exists shp dbf,
       sr zr = Some (SequentialReaderFromExt shp dbf) /\
       HasSuffix (stream_entry shp) ".shp" = true /\
       forall d, dbf = Some d ->
                 stream_entry d = dbfNameOfShape (stream_entry shp)) /\
  (forall path name w zr w', OpenShapeFromZip path name w = (Ok zr, w') ->
     exists shp dbf,
       sr zr = Some (SequentialReaderFromExt shp dbf) /\
       stream_entry shp = name /\
       forall d, dbf = Some d -> stream_entry d = dbfNameOfName name) /\
  (forall zr, sr zr = None ->
     (forall w, Close zr w = Panic) /\ (forall c, facadeCall c zr = Panic)).
Proof.
  repeat apply conj.
  - intros path w zr w'. unfold OpenZip.
    destruct (zip_OpenReader path w) as [[rc|err] w1]; [|discriminate].
    destruct (loadSHPAndMaybeDBF _ w1) as [[[err|] zr'] w2] eqn:E;
      intros [= <- <-]. now apply load_ok_reader in E.
  - intros stream w zr w'. unfold OpenZipReader.
    destruct stream as [msg|msg|rd]; try discriminate.
    destruct (loadSHPAndMaybeDBF _ w) as [[[err|] zr'] w2] eqn:E;
      intros [= <- <-]. now apply load_ok_reader in E.
  - intros path name w zr w'. unfold OpenShapeFromZip.
    destruct (zip_OpenReader path w) as [[rc|err] w1]; [|discriminate].
    simpl z. destruct (openFromZIP (Reader rc) name w1) as [[shp|err] w2] eqn:E1;
      [|discriminate].
    apply openFromZIP_ok_inv in E1 as [E1 _].
    destruct (openFromZIP (Reader rc) (TrimSuffix name (Ext name) ++ ".dbf") w2)
      as [dbf w3] eqn:E2.
    intros [= <- _]. exists shp, (orNil dbf). simpl.
    split; [reflexivity|]. split; [exact E1|].
    intros d Hd. destruct dbf as [d'|err]; [|discriminate].
    injection Hd as ->. now apply openFromZIP_ok_inv in E2 as [E2 _].
  - intros zr Hsr. split.
    + intros w. unfold Close. now rewrite Hsr.
    + intros c. destruct c; simpl;
        unfold Next, Shape_, Attribute, Fields, Err_, forward; now rewrite Hsr.
Qed.

End StreamFacade.

Lemma X6_OpenZipReader_owns_no_handle_witness :
  OpenZipReader (impl := sampleImpl) (ArchiveBytes (archive_reader parcels))
    parcelsOpen =
    (Ok {| sr := sr parcelsFacade; z := archive_reader parcels; file := None |},
     parcelsLoaded) /\
  handles parcelsLoaded = handles parcelsOpen.
Proof.
  pose (H := eq_refl :
          OpenZipReader (impl := sampleImpl)
            (ArchiveBytes (archive_reader parcels)) parcelsOpen =
          (Ok {| sr := sr parcelsFacade; z := archive_reader parcels;
                 file := None |}, parcelsLoaded)).
  split; [exact H|].
  exact (proj1 (X6_OpenZipReader_owns_no_handle (impl := sampleImpl) _ _ _ _ H)).
Defined.

Lemma X7_constructed_facade_reader_witness :
  OpenZip (impl := sampleImpl) "parcels.zip" (worldOf "parcels.zip" parcels) =
    (Ok parcelsFacade, parcelsLoaded) /\
  exists shp dbf,
    sr parcelsFacade = Some (SequentialReaderFromExt shp dbf) /\
    HasSuffix (stream_entry shp) ".shp" = true.
Proof.
  pose (H := eq_refl : OpenZip (impl := sampleImpl) "parcels.zip"
                         (worldOf "parcels.zip" parcels) =
                       (Ok parcelsFacade, parcelsLoaded)).
  split; [exact H|].
  destruct (proj1 (X7_constructed_facade_reader (impl := sampleImpl)) _ _ _ _ H)
    as (shp & dbf & Hsr & Hshp & _).
  now exists shp, dbf.
Defined.

(** ** What Close reports and what it changes *)

Section CloseFacts.

Context {impl : SeqReaderImpl}.

Lemma addError_after_some (s : string) (e : error) (o : option error) :
  String.eqb (addError (addError s (Some e)) o) "" = false.
Proof.
  destruct o as [e2|]; [apply addError_some|].
  change (addError (addError s (Some e)) None) with (addError s (Some e)).
  apply addError_some.
Qed.

(** X8. On a facade that wraps a reader, [Close] returns no error
    exactly when the close of the reader reports none and, if the facade
    owns a container handle, the close of that handle reports none; an
    error with an empty message counts as a failure. *)
Theorem X8_Close_nil_iff (zr : ZipReader) (rd : SequentialReader) (w : World) :
  sr zr = Some rd ->
  (exists zr' w', Close zr w = Return (None, zr', w')) <->
  (sr_Close rd).1 = None /\
  (forall rc, file zr = Some rc -> (zipReadCloser_Close rc w).1 = None).
Proof.
  intros Hsr. rewrite (Close_unfold _ _ _ Hsr). cbv zeta. split.
  - intros (zr' & w' & H). injection H as H _ _.
    destruct (sr_Close rd).1 as [e1|].
    + exfalso. destruct (file zr) as [rc|].
      * rewrite addError_after_some in H. discriminate.
      * rewrite addError_some in H. discriminate.
    + split; [reflexivity|]. intros rc Hrc. rewrite Hrc in H.
      destruct (zipReadCloser_Close rc w).1 as [e2|]; [|reflexivity].
      rewrite addError_some in H. discriminate.
  - intros [-> H2]. destruct (file zr) as [rc|];
      [rewrite (H2 rc eq_refl)|]; now eexists _, _.
Qed.

(** X9. [Close] changes nothing in the world but the facade's own
    container handle: the archives, the log of opened streams and every
    other handle are as before, and the facade keeps its directory and
    its handle.  Its own handle is closed afterwards, whatever the close
    of the reader reported. *)
Theorem X9_Close_touches_own_handle_only (zr zr' : ZipReader) (w w' : World)
    (err : option error) :
  Close zr w = Return (err, zr', w') ->
  fsys w' = fsys w /\ opens w' = opens w /\
  length (handles w') = length (handles w) /\
  z zr' = z zr /\ file zr' = file zr /\
  (forall i, (forall rc, file zr = Some rc -> f rc <> i) ->
             handles w' !! i = handles w !! i) /\
  (forall rc h, file zr = Some rc -> handles w !! f rc = Some h ->
     exists h', handles w' !! f rc = Some h' /\
                h_status h' = HClosed /\ h_path h' = h_path h).
Proof.
  intros H. destruct (sr zr) as [rd|] eqn:Hsr;
    [|unfold Close in H; rewrite Hsr in H; discriminate].
  rewrite (Close_unfold _ _ _ Hsr) in H. injection H as _ <- <-.
  destruct (file zr) as [rc|] eqn:Hfile.
  - unfold zipReadCloser_Close.
    destruct (handles w !! f rc) as [h|] eqn:Hh.
    + destruct (h_status h) eqn:Hs; simpl; split_and!; try (reflexivity || assumption).
      * now rewrite length_insert.
      * intros i Hi. apply list_lookup_insert_ne. now apply Hi.
      * intros rc' h' [= <-] Hh'. rewrite Hh in Hh'. injection Hh' as <-.
        rewrite list_lookup_insert_eq by now apply lookup_lt_Some in Hh.
        now eexists.
      * intros rc' h' [= <-] Hh'. rewrite Hh in Hh'.
        injection Hh' as <-. now exists h.
    + simpl. split_and!; try (reflexivity || assumption).
      intros rc' h' [= <-] Hh'. congruence.
  - split_and!; try (reflexivity || assumption). discriminate.
Qed.

(** X10. The handle [OpenZip] opens is the one [Close] releases: after
    a successful [OpenZip] and [Close] of the facade it returned, the
    handles are those open before, with the handle of the archive added
    and closed. *)
Theorem X10_OpenZip_Close_releases (path : string) (w w2 w3 : World)
    (zr zr' : ZipReader) (err : option error) :
  OpenZip path w = (Ok zr, w2) ->
  Close zr w2 = Return (err, zr', w3) ->
  map h_status (handles w3) = (map h_status (handles w) ++ [HClosed])%list /\
  map h_path (handles w3) = (map h_path (handles w) ++ [path])%list /\
  fsys w3 = fsys w.
Proof.
  unfold OpenZip. destruct (zip_OpenReader path w) as [[rc|e] w1] eqn:Hopen;
    [|discriminate].
  destruct (zip_OpenReader_world _ _ _ _ Hopen)
    as (a & _ & _ & Hf & Hfs & _ & Hh).
  set (zr0 := {| sr := None; z := Reader rc; file := Some rc |}).
  pose proof (loadSHPAndMaybeDBF_handles zr0 w1) as Hh2.
  pose proof (loadSHPAndMaybeDBF_fsys zr0 w1) as Hfs2.
  destruct (loadSHPAndMaybeDBF zr0 w1) as [[[e|] zr1] w1'] eqn:E;
    intros [= <- <-]. simpl in Hh2, Hfs2.
  apply load_ok_facade in E as ([rd Hsr] & _ & Hfile). simpl in Hfile.
  rewrite (Close_unfold _ _ _ Hsr), Hfile. intros [= _ _ <-].
  unfold zipReadCloser_Close. rewrite Hh2, Hh, Hf.
  rewrite list_lookup_middle by reflexivity. simpl.
  rewrite insert_app_r_alt by lia. rewrite Nat.sub_diag. simpl.
  rewrite !map_app. simpl. repeat split. congruence.
Qed.

Lemma noByte_dot_space : noByte "%" ". ".
Proof.
  unfold noByte. simpl.
  repeat (apply not_elem_of_cons; split; [discriminate|]). apply not_elem_of_nil.
Qed.

Lemma noByte_addError (s : string) (err : option error) :
  noByte "%" s ->
  (forall e, err = Some e -> noByte "%" (Error e)) ->
  noByte "%" (addError s err).
Proof.
  intros Hs He. destruct err as [e|]; [|exact Hs]. unfold addError.
  rewrite !noByte_append. repeat split;
    [exact Hs | now apply He | apply noByte_dot_space].
Qed.

(** X11. When no message of a failed close contains a ['%'], the
    message of the error [Close] returns is the message of the reader's
    close error, if any, followed by ". ", then the message of the
    container's close error, if any, followed by ". ". *)
Theorem X11_Close_message_plain (zr zr' : ZipReader) (rd : SequentialReader)
    (w w' : World) (err : error) :
  sr zr = Some rd ->
  Close zr w = Return (Some err, zr', w') ->
  let e2 := match file zr with
            | Some rc => (zipReadCloser_Close rc w).1
            | None => None
            end in
  (forall e, (sr_Close rd).1 = Some e -> noByte "%" (Error e)) ->
  (forall e, e2 = Some e -> noByte "%" (Error e)) ->
  Error err = addError (addError "" (sr_Close rd).1) e2.
Proof.
  intros Hsr H e2 P1 P2. rewrite (Close_unfold _ _ _ Hsr) in H. cbv zeta in H.
  injection H as H _ _.
  assert (Hs : (match file zr with
                | Some rc => addError (addError "" (sr_Close rd).1)
                               (zipReadCloser_Close rc w).1
                | None => addError "" (sr_Close rd).1
                end) = addError (addError "" (sr_Close rd).1) e2).
  { unfold e2. now destruct (file zr). }
  rewrite Hs in H.
  destruct (negb (String.eqb (addError (addError "" (sr_Close rd).1) e2) ""));
    [|discriminate].
  injection H as <-. cbn [Error]. apply Sprintf0_plain.
  apply noByte_addError; [|exact P2]. apply noByte_addError; [|exact P1].
  unfold noByte. simpl. apply not_elem_of_nil.
Qed.

End CloseFacts.

Lemma X8_Close_nil_iff_witness :
  sr parcelsFacade = Some (@SequentialReaderFromExt sampleImpl
                   {| stream_entry := "parcels.shp"; stream_id := 0;
                      stream_closeFault := None |}
                   (Some {| stream_entry := "parcels.dbf"; stream_id := 1;
                            stream_closeFault := None |})) /\
  exists zr' w', Close parcelsFacade parcelsLoaded = Return (None, zr', w').
Proof.
  split; [reflexivity|].
  apply (proj2 (X8_Close_nil_iff parcelsFacade _ parcelsLoaded eq_refl)).
  split; [reflexivity|]. intros rc [= <-]. reflexivity.
Defined.

Lemma X9_Close_touches_own_handle_only_witness :
  Close parcelsFacade parcelsLoaded = Return (None, parcelsFacade, parcelsDone) /\
  opens parcelsDone = opens parcelsLoaded /\
  length (handles parcelsDone) = length (handles parcelsLoaded).
Proof.
  pose (H := eq_refl : Close parcelsFacade parcelsLoaded =
                       Return (None, parcelsFacade, parcelsDone)).
  split; [exact H|].
  destruct (X9_Close_touches_own_handle_only _ _ _ _ _ H)
    as (_ & Hop & Hlen & _).
  now split.
Defined.

Lemma X10_OpenZip_Close_releases_witness :
  OpenZip (impl := sampleImpl) "parcels.zip" (worldOf "parcels.zip" parcels) =
    (Ok parcelsFacade, parcelsLoaded) /\
  Close parcelsFacade parcelsLoaded = Return (None, parcelsFacade, parcelsDone) /\
  map h_status (handles parcelsDone) = [HClosed].
Proof.
  pose (H := eq_refl : OpenZip (impl := sampleImpl) "parcels.zip"
                         (worldOf "parcels.zip" parcels) =
                       (Ok parcelsFacade, parcelsLoaded)).
  pose (H' := eq_refl : Close parcelsFacade parcelsLoaded =
                        Return (None, parcelsFacade, parcelsDone)).
  split; [exact H|]. split; [exact H'|].
  exact (proj1 (X10_OpenZip_Close_releases _ _ _ _ _ _ _ H H')).
Defined.

Lemma X11_Close_message_plain_witness :
  Close planFacade parcelsOpen =
    Return (Some (ErrAggregate "unexpected EOF. "), planFacade, parcelsOpen) /\
  Error (ErrAggregate "unexpected EOF. ") = "unexpected EOF. ".
Proof.
  pose (H := eq_refl : Close planFacade parcelsOpen =
    Return (Some (ErrAggregate "unexpected EOF. "), planFacade, parcelsOpen)).
  split; [exact H|].
  apply (X11_Close_message_plain planFacade _ _ _ _ _ eq_refl H).
  - intros e [= <-]. unfold noByte. simpl.
    repeat (apply not_elem_of_cons; split; [discriminate|]).
    apply not_elem_of_nil.
  - intros e [=].
Defined.

(** ** Entries of the same name *)

Section Duplicates.

Context {impl : SeqReaderImpl}.

(** X12. Open by name looks no further than the first entry of the
    requested name: when that entry does not open, [OpenShapeFromZip]
    fails with its error, whatever entries of the same name follow. *)
Theorem X12_first_entry_decides (path name msg : string) (w w1 : World)
    (rc : zipReadCloser) (e : zipFile) :
  zip_OpenReader path w = (Ok rc, w1) ->
  firstNamed name (File (Reader rc)) e ->
  openFault e = Some msg ->
  OpenShapeFromZip path name w = (Err (ErrForeign msg), log_open w1 name).
Proof.
  intros Hopen He Hfault.
  rewrite (OpenShapeFromZip_opened _ _ _ _ _ Hopen).
  rewrite (openFromZIP_first _ _ _ _ He). unfold zipFile_Open.
  rewrite Hfault. now destruct (firstNamed_elem _ _ _ He) as [_ ->].
Qed.

End Duplicates.

Lemma X12_first_entry_decides_witness :
  zip_OpenReader "roads.zip" (worldOf "roads.zip" twins) =
    (Ok {| Reader := archive_reader twins; f := 0 |},
     set_handles (worldOf "roads.zip" twins)
       [{| h_path := "roads.zip"; h_status := HOpen; h_closeFault := None |}]) /\
  (OpenShapeFromZip (impl := sampleImpl) "roads.zip" "roads.shx"
     (worldOf "roads.zip" twins)).1 = Err (ErrForeign "zip: checksum error").
Proof.
  pose (H := eq_refl : zip_OpenReader "roads.zip" (worldOf "roads.zip" twins) =
    (Ok {| Reader := archive_reader twins; f := 0 |},
     set_handles (worldOf "roads.zip" twins)
       [{| h_path := "roads.zip"; h_status := HOpen; h_closeFault := None |}])).
  split; [exact H|].
  rewrite (X12_first_entry_decides (impl := sampleImpl) "roads.zip" "roads.shx"
             "zip: checksum error" _ _ _
             {| Name := "roads.shx"; openFault := Some "zip: checksum error";
                streamCloseFault := None |} H
             (firstNamed_here "roads.shx"
                {| Name := "roads.shx"; openFault := Some "zip: checksum error";
                   streamCloseFault := None |}
                [entry "roads.shx"] eq_refl)
             eq_refl).
  reflexivity.
Defined.

(** ** The extension of a name *)

Lemma string_app_nil_r (s : string) : s ++ "" = s.
Proof. apply bytes_inj. rewrite bytes_append. apply app_nil_r. Qed.

Lemma upto_from (i : nat) (s : string) : s = upto i s ++ from i s.
Proof.
  unfold upto, from. rewrite <- str_app, take_drop. symmetry. apply str_bytes.
Qed.

(** The scan of [path.Ext] returns nothing, or the text from a dot after
    which neither a dot nor a separator occurs. *)
Lemma Ext_loop_cases (n : nat) (path : string) :
  (forall j c, n <= j -> at_ path j = Some c -> c <> "/"%char /\ c <> "."%char) ->
  Ext_loop n path = "" \/
  exists i, at_ path i = Some "."%char /\ Ext_loop n path = from i path /\
    forall j c, i < j -> at_ path j = Some c -> c <> "/"%char /\ c <> "."%char.
Proof.
  induction n as [|n IH]; intros Hafter; [now left|]. cbn [Ext_loop].
  destruct (at_ path n) as [c|] eqn:Hc; [|now left].
  destruct (byte_eqb c "/") eqn:Hslash; [now left|].
  destruct (byte_eqb c ".") eqn:Hdot.
  - apply byte_eqb_true in Hdot as ->. right. exists n.
    repeat split; try reflexivity; try assumption;
      apply (Hafter j c); try assumption; lia.
  - apply byte_eqb_false in Hslash, Hdot. apply IH. intros j c' Hj Hc'.
    destruct (decide (j = n)) as [-> | Hne].
    + rewrite Hc in Hc'. injection Hc' as <-. now split.
    + apply (Hafter j c'); [lia | assumption].
Qed.

(** Every name is a prefix followed by its [path.Ext], which is empty
    or a dot followed by text without dot or separator; the companion name
    is that prefix followed by ".dbf". *)
Lemma Ext_prefix (name : string) :
  exists prefix,
    name = prefix ++ Ext name /\
    dbfNameOfName name = prefix ++ ".dbf" /\
    (Ext name = "" \/
     exists rest, Ext name = "." ++ rest /\ noByte "/" rest /\ noByte "." rest).
Proof.
  assert (Htrim : forall p s : string, name = p ++ s -> TrimSuffix name s = p)
    by (intros p s ->; apply TrimSuffix_app).
  unfold dbfNameOfName.
  destruct (Ext_loop_cases (len name) name) as [He | (i & Hi & He & Hrest)].
  { intros j c Hj Hc. apply lookup_lt_Some in Hc. unfold len in Hj. lia. }
  - fold (Ext name) in He. exists name. rewrite He, TrimSuffix_empty.
    split; [now rewrite string_app_nil_r|]. split; [reflexivity|now left].
  - fold (Ext name) in He. exists (upto i name). rewrite He.
    split; [apply upto_from|].
    split; [now rewrite (Htrim _ _ (upto_from i name))|].
    right. exists (from (S i) name).
    assert (Hdrop : drop i (bytes name) = "."%char :: drop (S i) (bytes name))
      by now apply drop_S.
    split; [unfold from; now rewrite Hdrop|].
    assert (Hno : forall c, c ∈ bytes (from (S i) name) ->
                            c <> "/"%char /\ c <> "."%char).
    { intros c Hin. unfold from in Hin. rewrite bytes_str in Hin.
      apply list_elem_of_lookup in Hin as [k Hk]. rewrite lookup_drop in Hk.
      apply (Hrest (S i + k) c); [lia | exact Hk]. }
    split; intros Hin; apply Hno in Hin as [? ?]; congruence.
Qed.

Section CompanionPrefix.

Context {impl : SeqReaderImpl}.

(** X13. The name [OpenShapeFromZip] looks up for the attribute table
    differs from the requested name in its extension only.  Every name
    is a prefix followed by its [path.Ext], the extension being empty or
    a dot followed by text without dot or separator; and whenever the
    requested entry opens, [OpenShapeFromZip] builds the reader with what
    the lookup of that prefix followed by ".dbf" returns. *)
Theorem X13_companion_keeps_prefix (name : string) :
  exists prefix,
    name = prefix ++ Ext name /\
    (Ext name = "" \/
     exists rest, Ext name = "." ++ rest /\ noByte "/" rest /\ noByte "." rest) /\
    forall path w rc w1 shp w2,
      zip_OpenReader path w = (Ok rc, w1) ->
      openFromZIP (Reader rc) name w1 = (Ok shp, w2) ->
      OpenShapeFromZip path name w =
        (Ok {| sr := Some (SequentialReaderFromExt shp
                             (orNil (openFromZIP (Reader rc)
                                       (prefix ++ ".dbf") w2).1));
               z := Reader rc; file := Some rc |},
         (openFromZIP (Reader rc) (prefix ++ ".dbf") w2).2).
Proof.
  destruct (Ext_prefix name) as (prefix & Hname & Hdbf & Hext).
  exists prefix. split; [exact Hname|]. split; [exact Hext|].
  intros path w rc w1 shp w2 Hopen Hshp.
  rewrite (OpenShapeFromZip_opened _ _ _ _ _ Hopen), Hshp, Hdbf.
  now destruct (openFromZIP (Reader rc) (prefix ++ ".dbf") w2).
Qed.

End CompanionPrefix.

Lemma X13_companion_keeps_prefix_witness :
  zip_OpenReader "parcels.zip" (worldOf "parcels.zip" parcels) =
    (Ok parcelsHandle, parcelsOpen) /\
  exists prefix,
    "parcels.shp" = prefix ++ Ext "parcels.shp" /\
    OpenShapeFromZip (impl := sampleImpl) "parcels.zip" "parcels.shp"
      (worldOf "parcels.zip" parcels) =
      (Ok {| sr := Some (SequentialReaderFromExt
                           {| stream_entry := "parcels.shp"; stream_id := 0;
                              stream_closeFault := None |}
                           (orNil (openFromZIP (Reader parcelsHandle)
                                     (prefix ++ ".dbf")
                                     (log_open parcelsOpen "parcels.shp")).1));
             z := Reader parcelsHandle; file := Some parcelsHandle |},
       (openFromZIP (Reader parcelsHandle) (prefix ++ ".dbf")
          (log_open parcelsOpen "parcels.shp")).2).
Proof.
  pose (H := eq_refl : zip_OpenReader "parcels.zip"
                         (worldOf "parcels.zip" parcels) =
                       (Ok parcelsHandle, parcelsOpen)).
  split; [exact H|].
  destruct (X13_companion_keeps_prefix (impl := sampleImpl) "parcels.shp")
    as (prefix & Hname & _ & Hlook).
  exists prefix. split; [exact Hname|].
  exact (Hlook "parcels.zip" _ _ _
           {| stream_entry := "parcels.shp"; stream_id := 0;
              stream_closeFault := None |}
           (log_open parcelsOpen "parcels.shp") H eq_refl).
Defined.

Lemma noByte_dbf_slash : noByte "/" "dbf".
Proof.
  unfold noByte. simpl.
  repeat (apply not_elem_of_cons; split; [discriminate|]). apply not_elem_of_nil.
Qed.

Lemma noByte_dbf_dot : noByte "." "dbf".
Proof.
  unfold noByte. simpl.
  repeat (apply not_elem_of_cons; split; [discriminate|]). apply not_elem_of_nil.
Qed.

Lemma dbfNameOfName_dbf (stem : string) :
  dbfNameOfName (stem ++ ".dbf") = stem ++ ".dbf".
Proof.
  unfold dbfNameOfName.
  pose proof (Ext_dot stem "dbf" noByte_dbf_slash noByte_dbf_dot) as HE.
  change ("." ++ "dbf") with ".dbf" in HE. now rewrite HE, TrimSuffix_app.
Qed.

Section SelfCompanion.

Context {impl : SeqReaderImpl}.

(** X14. A name ending in ".dbf" is its own companion name, and the
    companion name of a companion name is that name again.  Hence
    [OpenShapeFromZip] on a name ending in ".dbf" whose first entry opens
    builds the reader over two streams of that one entry, as geometry and
    as attribute table. *)
Theorem X14_dbf_is_its_own_companion (path stem : string) (w w1 : World)
    (rc : zipReadCloser) (e : zipFile) :
  zip_OpenReader path w = (Ok rc, w1) ->
  firstNamed (stem ++ ".dbf") (File (Reader rc)) e ->
  openFault e = None ->
  dbfNameOfName (stem ++ ".dbf") = stem ++ ".dbf" /\
  (forall name, dbfNameOfName (dbfNameOfName name) = dbfNameOfName name) /\
  exists shp dbf w',
    OpenShapeFromZip path (stem ++ ".dbf") w =
      (Ok {| sr := Some (SequentialReaderFromExt shp (Some dbf));
             z := Reader rc; file := Some rc |}, w') /\
    stream_entry shp = stem ++ ".dbf" /\ stream_entry dbf = stem ++ ".dbf".
Proof.
  intros Hopen He Hfault. split; [apply dbfNameOfName_dbf|]. split.
  - intros name. unfold dbfNameOfName at 2. apply dbfNameOfName_dbf.
  - rewrite (OpenShapeFromZip_opened _ _ _ _ _ Hopen).
    rewrite (openFromZIP_first _ _ _ _ He), (zipFile_Open_ok _ _ Hfault).
    rewrite dbfNameOfName_dbf.
    rewrite (openFromZIP_first _ _ _ _ He), (zipFile_Open_ok _ _ Hfault).
    destruct (firstNamed_elem _ _ _ He) as [_ Hname].
    do 3 eexists. split; [reflexivity|]. simpl. now split.
Qed.

End SelfCompanion.

Lemma X14_dbf_is_its_own_companion_witness :
  zip_OpenReader "parcels.zip" (worldOf "parcels.zip" parcels) =
    (Ok parcelsHandle, parcelsOpen) /\
  exists shp dbf w',
    OpenShapeFromZip (impl := sampleImpl) "parcels.zip" "parcels.dbf"
      (worldOf "parcels.zip" parcels) =
      (Ok {| sr := Some (SequentialReaderFromExt shp (Some dbf));
             z := Reader parcelsHandle; file := Some parcelsHandle |}, w') /\
    stream_entry shp = "parcels.dbf" /\ stream_entry dbf = "parcels.dbf".
Proof.
  pose (H := eq_refl : zip_OpenReader "parcels.zip"
                         (worldOf "parcels.zip" parcels) =
                       (Ok parcelsHandle, parcelsOpen)).
  split; [exact H|].
  assert (He : firstNamed ("parcels" ++ ".dbf") (File (Reader parcelsHandle))
                 (entry "parcels.dbf")).
  { apply (firstNamed_later _ (entry "parcels.shp")); [discriminate|].
    now apply firstNamed_here. }
  exact (proj2 (proj2 (X14_dbf_is_its_own_companion (impl := sampleImpl)
                         "parcels.zip" "parcels" _ _ _ _ H He eq_refl))).
Defined.

(** ** Listing, then opening by name *)

Section ListedNames.

Context {impl : SeqReaderImpl}.

(** X15. Every name [ShapesInZip] lists can be given to
    [OpenShapeFromZip] on the same path: the entry is found, so the call
    returns a facade or fails with the error of opening that entry's
    stream, never for want of an entry of that name. *)
Theorem X15_listed_names_resolve (path name : string) (w w1 : World)
    (names : list string) :
  ShapesInZip path w = (Ok names, w1) ->
  name ∈ names ->
  (exists zr w', OpenShapeFromZip path name w = (Ok zr, w')) \/
  (exists msg w', OpenShapeFromZip path name w = (Err (ErrForeign msg), w')).
Proof.
  intros (rc & Hopen & ->)%ShapesInZip_ok_inv Hin.
  apply list_elem_of_In, in_map_iff in Hin as (e0 & Hname & Hin%list_elem_of_In).
  apply elem_of_shapesInZip in Hin as [Hin _].
  destruct (firstNamed_exists _ _ _ Hin Hname) as [e He].
  rewrite (OpenShapeFromZip_opened _ _ _ _ _ Hopen).
  rewrite (openFromZIP_first _ _ _ _ He). unfold zipFile_Open.
  destruct (openFault e) as [msg|].
  - right. now eexists _, _.
  - left. destruct (openFromZIP (Reader rc) (dbfNameOfName name) _).
    now eexists _, _.
Qed.

End ListedNames.

Lemma X15_listed_names_resolve_witness :
  ShapesInZip "parcels.zip" (worldOf "parcels.zip" parcels) =
    (Ok ["parcels.shp"], parcelsOpen) /\
  ((exists zr w',
       OpenShapeFromZip (impl := sampleImpl) "parcels.zip" "parcels.shp"
         (worldOf "parcels.zip" parcels) = (Ok zr, w')) \/
   (exists msg w',
       OpenShapeFromZip (impl := sampleImpl) "parcels.zip" "parcels.shp"
         (worldOf "parcels.zip" parcels) = (Err (ErrForeign msg), w'))).
Proof.
  pose (H := eq_refl : ShapesInZip "parcels.zip" (worldOf "parcels.zip" parcels) =
                       (Ok ["parcels.shp"], parcelsOpen)).
  split; [exact H|].
  apply (X15_listed_names_resolve (impl := sampleImpl) _ _ _ _ _ H).
  apply list_elem_of_here.
Defined.
